(** * Route expansion and map rendering pipeline

    A shallow embedding of the two map components of the cargo route
    planner, [components/admin/PlanningMap.tsx] and its near-duplicate
    [UserRouteMap], and the properties of their render cycle:
    per-route failure isolation, polyline construction, colour
    assignment, viewport computation and cancellation of superseded
    cycles. *)

From stdpp Require Import gmap strings list pretty.
From Stdlib Require Import ZArith Lia.

(** ** Numbers

    Station coordinates are JSON numbers, that is finite doubles. The
    components never compute with them: they test them for truthiness,
    compare them with [!==] and hand them to Leaflet, which takes minima
    and maxima. Every finite double is an integer multiple of [2^-1074],
    so a coordinate [d] is carried as the integer [d * 2^1074]; this
    keeps zero, equality and order ([-0] and [+0] are the same number
    for all three). *)

Definition number : Type := Z.

Definition of_int (n : Z) : number := (n * 2 ^ 1074)%Z.

(** JavaScript truthiness of a number: only zero is falsy here. *)
Definition truthy (x : number) : bool := negb (x =? 0)%Z.

(** [a || b] on strings: the empty string is falsy. *)
Definition str_or (a b : string) : string :=
  if String.eqb a "" then b else a.

(** ** Data model *)

Definition LatLngTuple : Type := (number * number)%type.

Record Station := {
  id : Z;
  name : string;
  lat : number;
  lon : number;
  is_active : option bool
}.

Record PolylineData := {
  pid : string;
  color : string;
  points : list LatLngTuple
}.

Definition MAP_COLORS : list string :=
  ["#34d399"; "#22d3ee"; "#fbbf24"; "#a78bfa"; "#f472b6"; "#fb7185"].

Definition DEFAULT_CENTER : LatLngTuple := (of_int 39, of_int 35).

(** The four pieces of component state ([useState]). *)
Record RenderState := {
  stations : list Station;
  polylines : list PolylineData;
  loading : bool;
  error : option string
}.

Definition initial : RenderState :=
  {| stations := []; polylines := []; loading := false; error := None |}.

(** One route of the input, as both components read it: the label
    ([vehicle.vehicle_id], [poly.vehicle_label]) and the stop
    identifiers ([stops.map(s => s.station_id)], [poly.station_ids]). *)
Record RouteInput := {
  label : string;
  stopIds : list Z
}.

(** ** Polyline builder *)

(** [stationList.forEach((st) => stationMap.set(st.id, st))] *)
Definition stationMapOf (stationList : list Station) : gmap Z Station :=
  foldl (fun m st => <[id st := st]> m) ∅ stationList.

(** One turn of the loop over [expandedIds]. *)
Definition pushPoint (stationMap : gmap Z Station)
    (points : list LatLngTuple) (sid : Z) : list LatLngTuple :=
  match stationMap !! sid with
  | Some st =>
      let coord : LatLngTuple := (lat st, lon st) in
      match last points with
      | None => points ++ [coord]
      | Some l =>
          if negb (l.1 =? coord.1)%Z || negb (l.2 =? coord.2)%Z
          then points ++ [coord]
          else points
      end
  | None => points
  end.

Definition buildPoints (stationMap : gmap Z Station)
    (expandedIds : list Z) : list LatLngTuple :=
  foldl (pushPoint stationMap) [] expandedIds.

(** The colour of the route at position [vIdx] of the input. *)
Definition colorOf (vIdx : nat) : string :=
  default "" (MAP_COLORS !! (vIdx `mod` length MAP_COLORS)).

(** Template literals with [vIdx + 1]. *)
Definition numbered (prefix : string) (vIdx : nat) : string :=
  prefix +:+ pretty (vIdx + 1).

(** ** The two services

    What the network can answer to one [fetch]: the promise rejects, or
    a response arrives whose [ok] flag is false (only the [detail] field
    of its body is read, and a body that does not parse counts as none),
    or a response arrives with [ok] true and a body that parses or not. *)

Inductive HttpReply (P : Type) :=
| NetworkFailure
| Status (detail : option string)
| Ok (json : option P).

Arguments NetworkFailure {P}.
Arguments Status {P} detail.
Arguments Ok {P} json.

Inductive Error :=
| AbortError
| TypeError
| SyntaxError
| Err (message : string).

Inductive Settled (A : Type) :=
| Fulfilled (a : A)
| Rejects (e : Error).

Arguments Fulfilled {A} a.
Arguments Rejects {A} e.

(** The body of a successful expansion; [None] is a field that is
    missing or null. *)
Record ExpandPayload := {
  expanded_station_ids : option (list Z)
}.

Definition fetchStations (r : HttpReply (list Station))
    : Settled (list Station) :=
  match r with
  | NetworkFailure => Rejects TypeError
  | Status detail =>
      Rejects (Err (str_or (default "" detail) "İstasyonlar alınamadı."))
  | Ok None => Rejects SyntaxError
  | Ok (Some stationList) => Fulfilled stationList
  end.

Definition expandRoute (r : HttpReply ExpandPayload) : Settled (list Z) :=
  match r with
  | NetworkFailure => Rejects TypeError
  | Status detail =>
      Rejects (Err (str_or (default "" detail) "Rota genişletilemiyor."))
  | Ok None => Rejects SyntaxError
  | Ok (Some payload) => Fulfilled (default [] (expanded_station_ids payload))
  end.

(** ** The render cycle as a resumable program

    [buildRoutes] is an async function: it runs until it awaits one of
    the two services and is resumed with the outcome. Its body is kept
    as a tree of the effects it performs, the continuation of each await
    being a function of what the awaited call settles to. *)

Inductive Prog :=
| Return
| SetStations (v : list Station) (k : Prog)
| SetPolylines (v : list PolylineData) (k : Prog)
| SetLoading (v : bool) (k : Prog)
| SetError (v : option string) (k : Prog)
| SignalAborted (k : bool -> Prog)
| AwaitFetchStations (k : Settled (list Station) -> Prog)
| AwaitExpandRoute (stationIds : list Z) (k : Settled (list Z) -> Prog).

Definition GENERIC_WARNING : string :=
  "Bu rota için bazı istasyonlar arasında yol bulunamadı. Lütfen km bağlantılarını kontrol edin.".

Definition ROUTE_FAILED : string := ": Rota hesaplanamadı".

(** [finally { if (!controller.signal.aborted) setLoading(false); }] *)
Definition finally_ : Prog :=
  SignalAborted (fun aborted =>
    if negb aborted then SetLoading false Return else Return).

(** The name a failed route is reported under. *)
Definition vehicleName (r : RouteInput) (vIdx : nat) : string :=
  str_or (label r) (numbered "Araç " vIdx).

Definition routeError (r : RouteInput) (vIdx : nat) : string :=
  vehicleName r vIdx +:+ ROUTE_FAILED.

Definition partialWarning (routeErrors : list string) : string :=
  GENERIC_WARNING +:+ " (" +:+ String.concat ", " routeErrors +:+ ")".

Section Cycle.

(** The prefix of the fallback polyline id: ["vehicle-"] in the
    planning map, ["route-"] in the user route map. *)
Variable idPrefix : string.

Definition polylineOf (r : RouteInput) (vIdx : nat)
    (points : list LatLngTuple) : PolylineData :=
  {| pid := str_or (label r) (numbered idPrefix vIdx);
     color := colorOf vIdx;
     points := points |}.

(** What follows the loop over the routes. *)
Definition complete (stationList : list Station) (hasError : bool)
    (routes : list PolylineData) (routeErrors : list string) : Prog :=
  SetStations stationList (SetPolylines routes
    (if hasError && (0 <? length routeErrors)
     then SetError (Some (partialWarning routeErrors)) finally_
     else finally_)).

(** The loop over the routes, from position [vIdx] on. *)
Fixpoint loop (stationList : list Station) (stationMap : gmap Z Station)
    (vIdx : nat) (rest : list RouteInput) (hasError : bool)
    (routes : list PolylineData) (routeErrors : list string) : Prog :=
  match rest with
  | [] => complete stationList hasError routes routeErrors
  | vehicle :: rest =>
      match stopIds vehicle with
      | [] =>
          loop stationList stationMap (S vIdx) rest
            hasError routes routeErrors
      | stationIds =>
          AwaitExpandRoute stationIds (fun outcome =>
            match outcome with
            | Fulfilled expandedIds =>
                let points := buildPoints stationMap expandedIds in
                loop stationList stationMap (S vIdx) rest hasError
                  (if 1 <? length points
                   then routes ++ [polylineOf vehicle vIdx points]
                   else routes)
                  routeErrors
            | Rejects _ =>
                SignalAborted (fun aborted =>
                  if aborted then finally_
                  else
                    loop stationList stationMap (S vIdx) rest true routes
                      (routeErrors ++ [routeError vehicle vIdx]))
            end)
      end
  end.

Definition buildRoutes (rs : list RouteInput) : Prog :=
  SetLoading true (SetError None (SetPolylines []
    (AwaitFetchStations (fun outcome =>
       match outcome with
       | Fulfilled stationList =>
           loop stationList (stationMapOf stationList) 0 rs false [] []
       | Rejects _ =>
           SignalAborted (fun aborted =>
             if aborted then finally_
             else SetError (Some GENERIC_WARNING) finally_)
       end)))).

End Cycle.

(** ** Running a program up to its next await *)

Inductive Request :=
| GetStations
| PostExpandRoute (station_ids : list Z).

(** An async function suspended at an await. *)
Inductive Pending :=
| AwaitingStations (k : Settled (list Station) -> Prog)
| AwaitingExpansion (k : Settled (list Z) -> Prog).

Inductive NetReply :=
| StationsReply (r : HttpReply (list Station))
| ExpandReply (r : HttpReply ExpandPayload).

Definition setStations v (st : RenderState) : RenderState :=
  {| stations := v; polylines := polylines st;
     loading := loading st; error := error st |}.
Definition setPolylines v (st : RenderState) : RenderState :=
  {| stations := stations st; polylines := v;
     loading := loading st; error := error st |}.
Definition setLoading v (st : RenderState) : RenderState :=
  {| stations := stations st; polylines := polylines st;
     loading := v; error := error st |}.
Definition setError v (st : RenderState) : RenderState :=
  {| stations := stations st; polylines := polylines st;
     loading := loading st; error := v |}.

(** [exec aborted p st] runs [p] from component state [st] until it
    returns or issues a request and suspends; [aborted] is the value of
    [controller.signal.aborted], which cannot change while the program
    runs (the runtime is single-threaded). *)
Fixpoint exec (aborted : bool) (p : Prog) (st : RenderState)
    : RenderState * option (Request * Pending) :=
  match p with
  | Return => (st, None)
  | SetStations v k => exec aborted k (setStations v st)
  | SetPolylines v k => exec aborted k (setPolylines v st)
  | SetLoading v k => exec aborted k (setLoading v st)
  | SetError v k => exec aborted k (setError v st)
  | SignalAborted k => exec aborted (k aborted) st
  | AwaitFetchStations k => (st, Some (GetStations, AwaitingStations k))
  | AwaitExpandRoute ids k =>
      (st, Some (PostExpandRoute ids, AwaitingExpansion k))
  end.

(** A [fetch] whose signal is aborted rejects with an [AbortError],
    whatever the network would have answered. *)
Definition withSignal {A} (aborted : bool) (outcome : Settled A)
    : Settled A :=
  if aborted then Rejects AbortError else outcome.

(** The program a suspended function continues with when the network
    answers [r]; an answer of the other service is not for it. *)
Definition settle (aborted : bool) (pend : Pending) (r : NetReply)
    : option Prog :=
  match pend, r with
  | AwaitingStations k, StationsReply h =>
      Some (k (withSignal aborted (fetchStations h)))
  | AwaitingExpansion k, ExpandReply h =>
      Some (k (withSignal aborted (expandRoute h)))
  | AwaitingStations k, ExpandReply _ =>
      if aborted then Some (k (Rejects AbortError)) else None
  | AwaitingExpansion k, StationsReply _ =>
      if aborted then Some (k (Rejects AbortError)) else None
  end.

(** ** One render cycle, left alone

    A cycle that no later trigger interrupts: its controller is never
    aborted. [issued] records the requests it has sent. *)

Record Run := {
  state : RenderState;
  issued : list Request;
  waiting : option Pending
}.

Definition advance (p : Prog) (st : RenderState) (sent : list Request)
    : Run :=
  match exec false p st with
  | (st', None) => {| state := st'; issued := sent; waiting := None |}
  | (st', Some (rq, pend)) =>
      {| state := st'; issued := sent ++ [rq]; waiting := Some pend |}
  end.

Definition deliver (run : Run) (r : NetReply) : Run :=
  match waiting run with
  | None => run
  | Some pend =>
      match settle false pend r with
      | None => run
      | Some p => advance p (state run) (issued run)
      end
  end.

(** The answers a cycle over [rs] receives when the expansion request of
    the route at position [i] is answered [exp i]: routes without stops
    send no request. *)
Fixpoint expansionReplies (exp : nat -> HttpReply ExpandPayload)
    (vIdx : nat) (rs : list RouteInput) : list NetReply :=
  match rs with
  | [] => []
  | r :: rest =>
      match stopIds r with
      | [] => expansionReplies exp (S vIdx) rest
      | _ => ExpandReply (exp vIdx) :: expansionReplies exp (S vIdx) rest
      end
  end.

Definition cycle (idPrefix : string) (st : RenderState)
    (rs : list RouteInput) (dir : HttpReply (list Station))
    (exp : nat -> HttpReply ExpandPayload) : Run :=
  foldl deliver (advance (buildRoutes idPrefix rs) st [])
    (StationsReply dir :: expansionReplies exp 0 rs).

(** ** What a cycle is expected to produce, route by route *)

Inductive Outcome :=
| Skipped
| Failed
| Expanded (expandedIds : list Z).

(** The fate of a route whose expansion request, if one is sent, is
    answered [h]. *)
Definition outcomeOf (r : RouteInput) (h : HttpReply ExpandPayload)
    : Outcome :=
  match stopIds r with
  | [] => Skipped
  | _ =>
      match expandRoute h with
      | Fulfilled expandedIds => Expanded expandedIds
      | Rejects _ => Failed
      end
  end.

(** The polyline a route contributes, if any. *)
Definition drawn (idPrefix : string) (stationMap : gmap Z Station)
    (r : RouteInput) (vIdx : nat) (o : Outcome) : list PolylineData :=
  match o with
  | Expanded expandedIds =>
      let points := buildPoints stationMap expandedIds in
      if 1 <? length points then [polylineOf idPrefix r vIdx points] else []
  | _ => []
  end.

(** The error line a route contributes, if any. *)
Definition reported (r : RouteInput) (vIdx : nat) (o : Outcome)
    : list string :=
  match o with
  | Failed => [routeError r vIdx]
  | _ => []
  end.

Fixpoint rendered (idPrefix : string) (stationMap : gmap Z Station)
    (exp : nat -> HttpReply ExpandPayload) (vIdx : nat)
    (rs : list RouteInput) : list PolylineData :=
  match rs with
  | [] => []
  | r :: rest =>
      drawn idPrefix stationMap r vIdx (outcomeOf r (exp vIdx))
      ++ rendered idPrefix stationMap exp (S vIdx) rest
  end.

Fixpoint failures (exp : nat -> HttpReply ExpandPayload) (vIdx : nat)
    (rs : list RouteInput) : list string :=
  match rs with
  | [] => []
  | r :: rest =>
      reported r vIdx (outcomeOf r (exp vIdx)) ++ failures exp (S vIdx) rest
  end.

(** The warning after the loop: [prev] is kept when no route failed. *)
Definition warningOr (prev : option string) (routeErrors : list string)
    : option string :=
  match routeErrors with
  | [] => prev
  | _ => Some (partialWarning routeErrors)
  end.

Definition warningOf (routeErrors : list string) : option string :=
  warningOr None routeErrors.

(** The expansion requests of a cycle: one per route that has stops. *)
Fixpoint requestsOf (rs : list RouteInput) : list Request :=
  match rs with
  | [] => []
  | r :: rest =>
      match stopIds r with
      | [] => requestsOf rest
      | stationIds => PostExpandRoute stationIds :: requestsOf rest
      end
  end.

(** [needle] occurs in [hay]. *)
Definition mentions (needle hay : string) : Prop :=
  exists pre post, hay = pre +:+ needle +:+ post.

(** The number of routes before position [i] that have stops. *)
Definition attemptIndex (rs : list RouteInput) (i : nat) : nat :=
  length (requestsOf (take i rs)).

(** ** Points of a polyline *)

(** The coordinates of an identifier, when the directory knows it. *)
Definition coordOf (stationMap : gmap Z Station) (sid : Z)
    : option LatLngTuple :=
  (fun st => (lat st, lon st)) <$> stationMap !! sid.

(** Collapsing runs of identical consecutive points, as the
    specification words it. *)
Fixpoint dedupConsecutive (l : list LatLngTuple) : list LatLngTuple :=
  match l with
  | [] => []
  | x :: rest =>
      match rest with
      | [] => [x]
      | y :: _ =>
          if decide (x = y) then dedupConsecutive rest
          else x :: dedupConsecutive rest
      end
  end.

(** The same, reading from the left after a point [prev] already kept. *)
Fixpoint collapseAfter (prev : option LatLngTuple) (l : list LatLngTuple)
    : list LatLngTuple :=
  match l with
  | [] => []
  | c :: rest =>
      if decide (prev = Some c) then collapseAfter prev rest
      else c :: collapseAfter (Some c) rest
  end.


(** ** Viewport *)

Record LatLngBounds := {
  south : number;
  west : number;
  north : number;
  east : number
}.

(** Leaflet's [extend]: the rectangle grown to take in one more point. *)
Definition extend (b : LatLngBounds) (p : LatLngTuple) : LatLngBounds :=
  {| south := Z.min p.1 (south b); west := Z.min p.2 (west b);
     north := Z.max p.1 (north b); east := Z.max p.2 (east b) |}.

(** The rectangle of a single point. *)
Definition pointBounds (p : LatLngTuple) : LatLngBounds :=
  {| south := p.1; west := p.2; north := p.1; east := p.2 |}.

(** Leaflet's [L.latLngBounds(points)] on a list that is not empty: the
    rectangle of the first point, extended by the others in turn. *)
Definition latLngBounds (p : LatLngTuple) (rest : list LatLngTuple)
    : LatLngBounds :=
  foldl extend (pointBounds p) rest.

(** [polylines.forEach((p) => allPoints.push(...p.points))] *)
Definition allPointsOf (polylines : list PolylineData)
    : list LatLngTuple :=
  foldl (fun allPoints p => allPoints ++ points p) [] polylines.

(** The [bounds] memo; [None] is [null]. *)
Definition bounds (polylines : list PolylineData)
    (stations : list Station) : option LatLngBounds :=
  match allPointsOf polylines with
  | [] =>
      match find (fun s => truthy (lat s) && truthy (lon s)) stations with
      | Some firstActive =>
          Some (latLngBounds (lat firstActive, lon firstActive) [])
      | None => None
      end
  | p :: rest => Some (latLngBounds p rest)
  end.

(** The [center] a component computes for [MapContainer], which reads
    it when the map is created: the middle of a rectangle (Leaflet's
    [getCenter]) or a given point. *)
Inductive Center :=
| CenterOf (b : LatLngBounds)
| At (c : LatLngTuple).

(** A point lies in a rectangle; one rectangle lies in another. *)
Definition covers (b : LatLngBounds) (p : LatLngTuple) : Prop :=
  (south b <= p.1 <= north b)%Z /\ (west b <= p.2 <= east b)%Z.

Definition within (b b' : LatLngBounds) : Prop :=
  (south b' <= south b)%Z /\ (north b <= north b')%Z /\
  (west b' <= west b)%Z /\ (east b <= east b')%Z.

(** ** The component over time

    The effect of the component runs on mount and whenever its input
    changes; each run first runs the cleanup the previous one returned.
    Between two runs the network settles the requests in flight, in any
    order. Controllers are numbered in the order they are created. *)

Record Component := {
  view : RenderState;
  abortRef : option nat;
  cleanup : option nat;
  aborted : gset nat;
  fresh : nat;
  inflight : gmap nat Pending;
  sent : list (nat * Request)
}.

Inductive Event :=
| Trigger (input : option (list RouteInput))
| Settle (controller : nat) (r : NetReply).

Definition mounted : Component :=
  {| view := initial; abortRef := None; cleanup := None; aborted := ∅;
     fresh := 0; inflight := ∅; sent := [] |}.

(** [controller.abort()] for the controller in [c], if there is one. *)
Definition abort (c : option nat) (signals : gset nat) : gset nat :=
  match c with
  | Some c => {[c]} ∪ signals
  | None => signals
  end.

Section Machine.

Variable idPrefix : string.

(** One run of the effect, after the previous cleanup. *)
Definition effect (input : option (list RouteInput)) (comp : Component)
    : Component :=
  match input with
  | None =>
      {| view := setError None (setPolylines [] (setStations [] (view comp)));
         abortRef := abortRef comp;
         cleanup := None;
         aborted := aborted comp;
         fresh := fresh comp;
         inflight := inflight comp;
         sent := sent comp |}
  | Some rs =>
      let controller := fresh comp in
      match exec false (buildRoutes idPrefix rs) (view comp) with
      | (st, suspended) =>
          {| view := st;
             abortRef := Some controller;
             cleanup := Some controller;
             aborted := abort (abortRef comp) (aborted comp);
             fresh := S controller;
             inflight :=
               match suspended with
               | Some (_, pend) => <[controller := pend]> (inflight comp)
               | None => inflight comp
               end;
             sent :=
               match suspended with
               | Some (rq, _) => sent comp ++ [(controller, rq)]
               | None => sent comp
               end |}
      end
  end.

Definition runCleanup (comp : Component) : Component :=
  {| view := view comp;
     abortRef := abortRef comp;
     cleanup := cleanup comp;
     aborted := abort (cleanup comp) (aborted comp);
     fresh := fresh comp;
     inflight := inflight comp;
     sent := sent comp |}.

(** The network settles the request of the cycle of [controller]. *)
Definition settled (controller : nat) (r : NetReply) (comp : Component)
    : Component :=
  match inflight comp !! controller with
  | None => comp
  | Some pend =>
      let isAborted := bool_decide (controller ∈ aborted comp) in
      match settle isAborted pend r with
      | None => comp
      | Some p =>
          match exec isAborted p (view comp) with
          | (st, suspended) =>
              {| view := st;
                 abortRef := abortRef comp;
                 cleanup := cleanup comp;
                 aborted := aborted comp;
                 fresh := fresh comp;
                 inflight :=
                   match suspended with
                   | Some (_, pend') =>
                       <[controller := pend']> (inflight comp)
                   | None => delete controller (inflight comp)
                   end;
                 sent :=
                   match suspended with
                   | Some (rq, _) => sent comp ++ [(controller, rq)]
                   | None => sent comp
                   end |}
          end
      end
  end.

Definition step (comp : Component) (ev : Event) : Component :=
  match ev with
  | Trigger input => effect input (runCleanup comp)
  | Settle controller r => settled controller r comp
  end.

Definition steps (comp : Component) (evs : list Event) : Component :=
  foldl step comp evs.

End Machine.

(** The answers among [evs] that are addressed to [controller]. *)
Definition repliesTo (controller : nat) (evs : list (nat * NetReply))
    : list NetReply :=
  omap (fun ev => if decide (ev.1 = controller) then Some ev.2 else None) evs.

Definition settleAll (evs : list (nat * NetReply)) : list Event :=
  map (fun ev => Settle ev.1 ev.2) evs.

(** ** The two components *)

Module PlanningMap.

Record PlanningStop := {
  station_id : Z;
  station_name : string
}.

Record PlanningVehicle := {
  vehicle_id : string;
  stops : list PlanningStop
}.

Record PlanningResponse := {
  date : string;
  vehicles : list PlanningVehicle
}.

Definition idPrefix : string := "vehicle-".

(** The routes the loop reads off [planning.vehicles]; a list that is
    missing reads as the empty one ([|| []]). *)
Definition routesOf (planning : PlanningResponse) : list RouteInput :=
  map (fun vehicle =>
         {| label := vehicle_id vehicle;
            stopIds := map station_id (stops vehicle) |})
      (vehicles planning).

(** The event of the component receiving [planning]. *)
Definition trigger (planning : option PlanningResponse) : Event :=
  Trigger (routesOf <$> planning).

Definition center (b : option LatLngBounds) : Center :=
  match b with
  | Some b => CenterOf b
  | None => At DEFAULT_CENTER
  end.

End PlanningMap.

Module UserRouteMap.

Record UserRoutePolyline := {
  vehicle_label : string;
  station_ids : list Z
}.

(** The markers of the map data are drawn as given and play no part in
    the cycle; [center] is the pair [(center.lat, center.lon)] and
    [polylines_in] the field [polylines]. *)
Record UserRouteMapData := {
  center : LatLngTuple;
  polylines_in : list UserRoutePolyline
}.

Definition idPrefix : string := "route-".

Definition routesOf (mapData : UserRouteMapData) : list RouteInput :=
  map (fun poly =>
         {| label := vehicle_label poly; stopIds := station_ids poly |})
      (polylines_in mapData).

(** The event of the component receiving [mapData]. *)
Definition trigger (mapData : option UserRouteMapData) : Event :=
  Trigger (routesOf <$> mapData).

Definition center' (mapData : option UserRouteMapData)
    (b : option LatLngBounds) : Center :=
  match mapData with
  | Some mapData => At (center mapData)
  | None =>
      match b with
      | Some b => CenterOf b
      | None => At DEFAULT_CENTER
      end
  end.

End UserRouteMap.

(** The fallback location as the specification words it: the first
    active location with valid coordinates. *)
Definition firstActiveLocation (stations : list Station) : option Station :=
  find (fun s => bool_decide (is_active s = Some true)
                 && truthy (lat s) && truthy (lon s)) stations.

(** The same station with another active flag. *)
Definition withActive (flag : option bool) (s : Station) : Station :=
  {| id := id s; name := name s; lat := lat s; lon := lon s;
     is_active := flag |}.

(** ** Invariants of the cycle *)

(** With its signal aborted, the program returns without a state
    update and without a request. *)
Fixpoint silent (p : Prog) : Prop :=
  match p with
  | Return => True
  | SignalAborted k => silent (k true)
  | _ => False
  end.

(** Run with its signal not aborted, the continuation of an await
    updates the state only if it runs to its return. *)
Definition quiet {A} (k : Settled A -> Prog) : Prop :=
  forall outcome st,
    (exec false (k outcome) st).2 <> None ->
    (exec false (k outcome) st).1 = st.

(** Every await of the program, the next one and those after it, has a
    continuation that is silent once its signal is aborted and quiet
    otherwise. *)
Fixpoint disciplined (p : Prog) : Prop :=
  match p with
  | Return => True
  | SetStations _ k | SetPolylines _ k | SetLoading _ k | SetError _ k =>
      disciplined k
  | SignalAborted k => disciplined (k false)
  | AwaitFetchStations k =>
      (forall e, silent (k (Rejects e))) /\ quiet k /\
      forall outcome, disciplined (k outcome)
  | AwaitExpandRoute _ k =>
      (forall e, silent (k (Rejects e))) /\ quiet k /\
      forall outcome, disciplined (k outcome)
  end.

Definition tame (pend : Pending) : Prop :=
  match pend with
  | AwaitingStations k =>
      (forall e, silent (k (Rejects e))) /\ quiet k /\
      forall outcome, disciplined (k outcome)
  | AwaitingExpansion k =>
      (forall e, silent (k (Rejects e))) /\ quiet k /\
      forall outcome, disciplined (k outcome)
  end.

(** The state right after a cycle has started. *)
Definition started (st : RenderState) : RenderState :=
  {| stations := stations st; polylines := []; loading := true;
     error := None |}.

(** The state right after a null input. *)
Definition cleared (st : RenderState) : RenderState :=
  {| stations := []; polylines := []; loading := loading st;
     error := None |}.

(** ** Invariants of the component *)

Record wf (comp : Component) : Prop := {
  wf_inflight : forall c pend,
    inflight comp !! c = Some pend -> c < fresh comp /\ tame pend;
  wf_live : forall c pend,
    inflight comp !! c = Some pend -> c ∉ aborted comp ->
    cleanup comp = Some c;
  wf_aborted : forall c, c ∈ aborted comp -> c < fresh comp;
  wf_cleanup : forall c, cleanup comp = Some c -> c < fresh comp;
  wf_abortRef : forall c, abortRef comp = Some c -> c < fresh comp
}.

(** A run of one cycle and the component agree on the cycle of
    [controller], and every other cycle in flight is aborted. *)
Record tracks (controller : nat) (comp : Component) (run : Run) : Prop := {
  tr_view : view comp = state run;
  tr_wait : inflight comp !! controller = waiting run;
  tr_live : controller ∉ aborted comp;
  tr_others : forall c pend,
    inflight comp !! c = Some pend -> c <> controller ->
    c ∈ aborted comp /\ tame pend
}.

(** ** Sample inputs *)

Definition sampleStations : list Station :=
  [ {| id := 10; name := "Izmit"; lat := of_int 40; lon := of_int 29;
       is_active := Some true |};
    {| id := 15; name := "Derince"; lat := of_int 41; lon := of_int 30;
       is_active := Some true |};
    {| id := 20; name := "Gebze"; lat := of_int 42; lon := of_int 28;
       is_active := Some false |} ].

Definition sampleRoutes : list RouteInput :=
  [ {| label := "V1"; stopIds := [10; 20]%Z |};
    {| label := "V2"; stopIds := [20; 10]%Z |};
    {| label := ""; stopIds := [15]%Z |} ].

(** The first route expands through an unknown station and a repeated
    one, the second gets an error status, the third a body without the
    expected field. *)
Definition sampleExpansion (vIdx : nat) : HttpReply ExpandPayload :=
  match vIdx with
  | 0 => Ok (Some {| expanded_station_ids := Some [10; 15; 15; 99; 20]%Z |})
  | 1 => Status (Some "no path")
  | _ => Ok (Some {| expanded_station_ids := None |})
  end.

Definition otherRoutes : list RouteInput :=
  [ {| label := "V7"; stopIds := [15; 10]%Z |} ].

Definition samplePlanning : PlanningMap.PlanningResponse :=
  {| PlanningMap.date := "2025-01-10";
     PlanningMap.vehicles :=
       [ {| PlanningMap.vehicle_id := "V1";
            PlanningMap.stops :=
              [ {| PlanningMap.station_id := 10;
                   PlanningMap.station_name := "Izmit" |};
                {| PlanningMap.station_id := 20;
                   PlanningMap.station_name := "Gebze" |} ] |};
         {| PlanningMap.vehicle_id := "V2";
            PlanningMap.stops :=
              [ {| PlanningMap.station_id := 20;
                   PlanningMap.station_name := "Gebze" |};
                {| PlanningMap.station_id := 10;
                   PlanningMap.station_name := "Izmit" |} ] |};
         {| PlanningMap.vehicle_id := "";
            PlanningMap.stops :=
              [ {| PlanningMap.station_id := 15;
                   PlanningMap.station_name := "Derince" |} ] |} ] |}.

(** A route with a single stop, and an expansion that returns it. *)
Definition singleStop : list RouteInput :=
  [ {| label := "V1"; stopIds := [10]%Z |} ].

Definition echoExpansion (_ : nat) : HttpReply ExpandPayload :=
  Ok (Some {| expanded_station_ids := Some [10]%Z |}).

Definition bareExpansion (_ : nat) : HttpReply ExpandPayload :=
  Ok (Some {| expanded_station_ids := None |}).

Definition sampleState : RenderState :=
  {| stations := sampleStations;
     polylines :=
       [ {| pid := "V1"; color := "#34d399";
            points := [ (of_int 40, of_int 29); (of_int 41, of_int 30);
                        (of_int 42, of_int 28) ] |} ];
     loading := false;
     error := None |}.

Definition sampleMapData : UserRouteMap.UserRouteMapData :=
  {| UserRouteMap.center := (of_int 40, of_int 29);
     UserRouteMap.polylines_in :=
       [ {| UserRouteMap.vehicle_label := "V1";
            UserRouteMap.station_ids := [10; 20]%Z |} ] |}.

(** ** Further notions *)

(** The id a route is drawn under: its label, or the numbered fallback. *)
Definition routeId (idPrefix : string) (r : RouteInput) (vIdx : nat)
    : string :=
  str_or (label r) (numbered idPrefix vIdx).

(** The id and colour each route would be drawn with, from position
    [vIdx] on, in input order. *)
Fixpoint routeSlotsFrom (idPrefix : string) (vIdx : nat)
    (rs : list RouteInput) : list (string * string) :=
  match rs with
  | [] => []
  | r :: rest =>
      (routeId idPrefix r vIdx, colorOf vIdx)
      :: routeSlotsFrom idPrefix (S vIdx) rest
  end.

(** Two awaited calls end alike: with the same value, or both with an
    error, whichever it is. *)
Definition sameFate {A} (a b : Settled A) : Prop :=
  match a, b with
  | Fulfilled x, Fulfilled y => x = y
  | Rejects _, Rejects _ => True
  | _, _ => False
  end.

(** A cycle of the component is live: in flight and not aborted. *)
Definition live (comp : Component) (c : nat) : Prop :=
  is_Some (inflight comp !! c) /\ c ∉ aborted comp.

(** Run with its signal not aborted, a program that returns leaves
    [loading] off. *)
Definition endsIdle (p : Prog) : Prop :=
  forall st,
    (exec false p st).2 = None -> loading (exec false p st).1 = false.

(** So does every continuation of every await of the program. *)
Fixpoint tidy (p : Prog) : Prop :=
  match p with
  | Return => True
  | SetStations _ k | SetPolylines _ k | SetLoading _ k | SetError _ k =>
      tidy k
  | SignalAborted k => tidy (k false)
  | AwaitFetchStations k =>
      forall outcome, endsIdle (k outcome) /\ tidy (k outcome)
  | AwaitExpandRoute _ k =>
      forall outcome, endsIdle (k outcome) /\ tidy (k outcome)
  end.

Definition tidyPending (pend : Pending) : Prop :=
  match pend with
  | AwaitingStations k =>
      forall outcome, endsIdle (k outcome) /\ tidy (k outcome)
  | AwaitingExpansion k =>
      forall outcome, endsIdle (k outcome) /\ tidy (k outcome)
  end.

(** The routes with their positions, from position [vIdx] on. *)
Fixpoint indexedFrom (vIdx : nat) (rs : list RouteInput)
    : list (nat * RouteInput) :=
  match rs with
  | [] => []
  | r :: rest => (vIdx, r) :: indexedFrom (S vIdx) rest
  end.

(** The line of the warning for the route [ir.2] at position [ir.1]:
    one when the route has stops and its expansion is rejected, none
    otherwise. *)
Definition failureLine (exp : nat -> HttpReply ExpandPayload)
    (ir : nat * RouteInput) : option string :=
  match stopIds ir.2, expandRoute (exp ir.1) with
  | _ :: _, Rejects _ => Some (routeError ir.2 ir.1)
  | _, _ => None
  end.

(** The triggers of a list of events are all render cycles. *)
Definition neverNull (evs : list Event) : Prop :=
  forall ev, ev ∈ evs -> ev <> Trigger None.

(** The character of the string ["/"]. *)
Definition slash : Ascii.ascii :=
  Ascii.Ascii true true true true false true false false.

(** [s.replace(/\/$/, "")]: the string without its last character when
    that is a slash. *)
Fixpoint stripSlash (s : string) : string :=
  match s with
  | EmptyString => EmptyString
  | String c rest =>
      match rest with
      | EmptyString => if Ascii.eqb c slash then EmptyString else s
      | _ => String c (stripSlash rest)
      end
  end.

Definition DEFAULT_API : string := "http://127.0.0.1:8000".

(** The [apiBase] memo; [env] is [process.env.NEXT_PUBLIC_API_URL],
    [None] when it is not set. *)
Definition apiBase (env : option string) : string :=
  stripSlash (str_or (default "" env) DEFAULT_API).

(** The two addresses the component requests. *)
Definition stationsUrl (env : option string) : string :=
  apiBase env +:+ "/stations".

Definition expandRouteUrl (env : option string) : string :=
  apiBase env +:+ "/graph/expand-route".

(** ** The results page, which hosts the planning map *)

(** [a || b] on numbers, and on strings that may be null. *)
Definition num_or (a b : number) : number := if truthy a then a else b.

Definition opt_or (a b : option string) : option string :=
  match a with
  | Some s => if String.eqb s "" then b else a
  | None => b
  end.

(** [!s] on a string that may be null. *)
Definition falsy (a : option string) : bool :=
  match a with
  | Some s => String.eqb s ""
  | None => true
  end.

(** The [message] of an error: the one it was made with, or for the
    errors the runtime raises the text [engine] gives them. *)
Definition messageOf (engine : Error -> string) (e : Error) : string :=
  match e with
  | Err message => message
  | _ => engine e
  end.

(** [apiGet] of the request library, on the answer of its [fetch]:
    a network failure is reported with the backend address, an error
    status with the detail of its body. *)
Definition apiGet {P} (env : option string) (r : HttpReply P) : Settled P :=
  match r with
  | NetworkFailure =>
      Rejects (Err ("Sunucuya bağlanılamadı (" +:+ apiBase env
                    +:+ "). Backend (API) çalışıyor mu?"))
  | Status detail =>
      Rejects (Err (str_or (default "" detail) "İstek başarısız"))
  | Ok None => Rejects SyntaxError
  | Ok (Some payload) => Fulfilled payload
  end.

Module ResultsPage.

(** The vehicle and the response as the page declares them; the fields
    [total_km] and [total_cost] of a vehicle are [km] and [cost]. *)
Record PlanningVehicle := {
  vehicle_id : string;
  capacity_kg : number;
  is_rental : bool;
  load_kg : number;
  stops : list PlanningMap.PlanningStop;
  km : number;
  cost : number
}.

Record PlanningResponse := {
  date : string;
  vehicles : list PlanningVehicle;
  total_cost : number;
  total_km : number;
  total_load_kg : number
}.

(** A vehicle of [LastResultResponse]. *)
Record VehicleCard := {
  name : string;
  card_capacity_kg : number;
  distance_km : number;
  card_load_kg : number;
  card_cost : number;
  stop_count : nat;
  route_station_names : list string
}.

Record LastResultResponse := {
  sum_cost : number;
  total_distance_km : number;
  sum_load_kg : number;
  vehicle_count : nat;
  cards : list VehicleCard
}.

(** The same response, as the planning map reads it. *)
Definition forMap (response : PlanningResponse)
    : PlanningMap.PlanningResponse :=
  {| PlanningMap.date := date response;
     PlanningMap.vehicles :=
       map (fun veh => {| PlanningMap.vehicle_id := vehicle_id veh;
                          PlanningMap.stops := stops veh |})
           (vehicles response) |}.

Record Page := {
  selectedVehicle : option nat;
  planningData : option PlanningResponse;
  data : option LastResultResponse;
  loading : bool;
  error : option string
}.

Definition firstRender : Page :=
  {| selectedVehicle := None; planningData := None; data := None;
     loading := true; error := None |}.

Section Loader.

(** [vehicleDisplayName(name, { index, isRental })] of the format
    library. *)
Variable vehicleDisplayName : string -> nat -> bool -> string.

(** The message the runtime gives its own errors. *)
Variable engine : Error -> string.

Definition card (idx : nat) (veh : PlanningVehicle) : VehicleCard :=
  {| name := vehicleDisplayName (vehicle_id veh) (idx + 1) (is_rental veh);
     card_capacity_kg := capacity_kg veh;
     distance_km := km veh;
     card_load_kg := load_kg veh;
     card_cost := cost veh;
     stop_count := length (stops veh);
     route_station_names := map PlanningMap.station_name (stops veh) |}.

Definition mapped (response : PlanningResponse) : LastResultResponse :=
  {| sum_cost := num_or (total_cost response) 0%Z;
     total_distance_km := num_or (total_km response) 0%Z;
     sum_load_kg := num_or (total_load_kg response) 0%Z;
     vehicle_count := length (imap card (vehicles response));
     cards := imap card (vehicles response) |}.

(** The catch block and the finally block, both guarded by [mounted]. *)
Definition caught (isMounted : bool) (e : Error) (p : Page) : Page :=
  if isMounted then
    {| selectedVehicle := selectedVehicle p;
       planningData := None;
       data := None;
       loading := false;
       error := Some (str_or (messageOf engine e)
                        "Planlama sonucu alınamadı.") |}
  else p.

(** [loadResult] up to its await: the page and, when a request is
    sent, its path. [qpId] is the [run_id] of the address, [lsId] the
    one kept in local storage. *)
Definition loadResult (qpId lsId : option string) (p : Page)
    : Page * option string :=
  let p1 := {| selectedVehicle := selectedVehicle p;
               planningData := planningData p;
               data := data p;
               loading := true;
               error := None |} in
  let runId := opt_or qpId lsId in
  if falsy runId
  then (caught true (Err "Seçilen planlama bulunamadı.") p1, None)
  else (p1, Some ("/planning/runs/" +:+ default "" runId)).

(** [loadResult] from its await on, [isMounted] being the flag the
    cleanup of the effect clears. *)
Definition resumed (isMounted : bool) (outcome : Settled PlanningResponse)
    (p : Page) : Page :=
  match outcome with
  | Fulfilled response =>
      if isMounted then
        {| selectedVehicle := None;
           planningData := Some response;
           data := Some (mapped response);
           loading := false;
           error := error p |}
      else p
  | Rejects e => caught isMounted e p
  end.

End Loader.

End ResultsPage.

(** The page and the map it hosts. The map is loaded on its own
    ([dynamic]) and mounts when it has arrived, with the [planningData]
    of that moment; its effect runs again when [planningData] changes,
    which on this page happens once at most, when the load succeeds.
    [None] is the map not mounted yet. *)
Record Hosted := {
  page : ResultsPage.Page;
  isMounted : bool;
  requested : option string;
  awaiting : bool;
  planningMap : option Component
}.

Inductive PageEvent :=
| ApiSettled (r : HttpReply ResultsPage.PlanningResponse)
| MapMounted
| MapSettled (controller : nat) (r : NetReply)
| Unmounted.

Section Hosting.

Variable vehicleDisplayName : string -> nat -> bool -> string.
Variable engine : Error -> string.
Variable env : option string.

Definition firstEffects (qpId lsId : option string) : Hosted :=
  let '(p, path) :=
    ResultsPage.loadResult engine qpId lsId ResultsPage.firstRender in
  {| page := p;
     isMounted := true;
     requested := path;
     awaiting := bool_decide (path <> None);
     planningMap := None |}.

Definition hostedStep (h : Hosted) (ev : PageEvent) : Hosted :=
  match ev with
  | ApiSettled r =>
      if awaiting h then
        let outcome := apiGet env r in
        {| page := ResultsPage.resumed vehicleDisplayName engine
                     (isMounted h) outcome (page h);
           isMounted := isMounted h;
           requested := requested h;
           awaiting := false;
           planningMap :=
             match outcome with
             | Fulfilled response =>
                 if isMounted h
                 then (fun m =>
                         step PlanningMap.idPrefix m
                           (PlanningMap.trigger
                              (Some (ResultsPage.forMap response))))
                      <$> planningMap h
                 else planningMap h
             | Rejects _ => planningMap h
             end |}
      else h
  | MapMounted =>
      match planningMap h with
      | None =>
          if isMounted h then
            {| page := page h;
               isMounted := isMounted h;
               requested := requested h;
               awaiting := awaiting h;
               planningMap :=
                 Some (step PlanningMap.idPrefix mounted
                         (PlanningMap.trigger
                            (ResultsPage.forMap
                               <$> ResultsPage.planningData (page h)))) |}
          else h
      | Some _ => h
      end
  | MapSettled c r =>
      {| page := page h;
         isMounted := isMounted h;
         requested := requested h;
         awaiting := awaiting h;
         planningMap :=
           (fun m => step PlanningMap.idPrefix m (Settle c r))
           <$> planningMap h |}
  | Unmounted =>
      {| page := page h;
         isMounted := false;
         requested := requested h;
         awaiting := awaiting h;
         planningMap := runCleanup <$> planningMap h |}
  end.

Definition hostedSteps (h : Hosted) (evs : list PageEvent) : Hosted :=
  foldl hostedStep h evs.

End Hosting.

(** A component whose [loading] flag tells the truth. *)
Definition settledWell (comp : Component) : Prop :=
  wf comp /\
  (forall c pend, inflight comp !! c = Some pend -> tidyPending pend) /\
  (loading (view comp) = true -> exists c, live comp c) /\
  (forall c, live comp c -> view comp = started (view comp)).

(** Every cycle in flight is aborted. *)
Definition allAborted (comp : Component) : Prop :=
  forall c pend, inflight comp !! c = Some pend -> c ∈ aborted comp.

(** ** More sample inputs *)

(** A directory answer that lists station 10 twice. *)
Definition repeatedStations : list Station :=
  [ {| id := 10; name := "Izmit"; lat := of_int 40; lon := of_int 29;
       is_active := Some true |};
    {| id := 20; name := "Gebze"; lat := of_int 42; lon := of_int 28;
       is_active := Some true |};
    {| id := 10; name := "Izmit (yeni)"; lat := of_int 41; lon := of_int 30;
       is_active := Some true |} ].

(** The answers of [sampleExpansion], the failure being of another
    kind. *)
Definition otherExpansion (vIdx : nat) : HttpReply ExpandPayload :=
  match vIdx with
  | 1 => NetworkFailure
  | _ => sampleExpansion vIdx
  end.

Definition emptyRoutes : list RouteInput :=
  [ {| label := "V1"; stopIds := [] |}; {| label := "V2"; stopIds := [] |} ].

Definition sampleResponse : ResultsPage.PlanningResponse :=
  {| ResultsPage.date := "2025-01-10";
     ResultsPage.vehicles :=
       [ {| ResultsPage.vehicle_id := "V1";
            ResultsPage.capacity_kg := of_int 500;
            ResultsPage.is_rental := false;
            ResultsPage.load_kg := of_int 120;
            ResultsPage.stops :=
              [ {| PlanningMap.station_id := 10;
                   PlanningMap.station_name := "Izmit" |};
                {| PlanningMap.station_id := 20;
                   PlanningMap.station_name := "Gebze" |} ];
            ResultsPage.km := of_int 48;
            ResultsPage.cost := of_int 96 |};
         {| ResultsPage.vehicle_id := "RV1";
            ResultsPage.capacity_kg := of_int 750;
            ResultsPage.is_rental := true;
            ResultsPage.load_kg := 0%Z;
            ResultsPage.stops := [];
            ResultsPage.km := 0%Z;
            ResultsPage.cost := 0%Z |} ];
     ResultsPage.total_cost := of_int 96;
     ResultsPage.total_km := of_int 48;
     ResultsPage.total_load_kg := of_int 120 |}.

(** Stand-ins for the format library and for the runtime's messages. *)
Definition plainName (vehicleName : string) (index : nat) (isRental : bool)
    : string :=
  vehicleName.

Definition plainEngine (e : Error) : string := "error".

(** Two routes under one label, and an expansion service that fails. *)
Definition twinRoutes : list RouteInput :=
  [ {| label := "V1"; stopIds := [10; 20]%Z |};
    {| label := "V1"; stopIds := [20; 10]%Z |} ].

Definition failingExpansion (_ : nat) : HttpReply ExpandPayload :=
  Status None.

(** A cycle over [sampleRoutes] with all its answers. *)
Definition completedCycle : list Event :=
  [ Trigger (Some sampleRoutes);
    Settle 0 (StationsReply (Ok (Some sampleStations)));
    Settle 0 (ExpandReply (sampleExpansion 0));
    Settle 0 (ExpandReply (sampleExpansion 1));
    Settle 0 (ExpandReply (sampleExpansion 2)) ].

(** * Properties *)

Example colorOf_7 : colorOf 7 = "#22d3ee".
Proof. reflexivity. Qed.

Example numbered_3 : numbered "Araç " 2 = "Araç 3".
Proof. vm_compute. reflexivity. Qed.

(** ** The loop, run to its end *)

Lemma advance_signal k st sent :
  advance (SignalAborted k) st sent = advance (k false) st sent.
Proof. reflexivity. Qed.

Lemma deliver_done run replies :
  waiting run = None -> foldl deliver run replies = run.
Proof.
  intros Hw. induction replies as [|r replies IH]; [done|].
  simpl. unfold deliver at 2. by rewrite Hw.
Qed.

Lemma advance_complete sl hasError routes errs st sent :
  hasError = (0 <? length errs) ->
  advance (complete sl hasError routes errs) st sent =
  {| state := {| stations := sl; polylines := routes; loading := false;
                 error := warningOr (error st) errs |};
     issued := sent; waiting := None |}.
Proof.
  intros ->. destruct errs as [|e errs]; reflexivity.
Qed.

Lemma loop_run idPrefix sl m exp rs :
  forall vIdx hasError routes errs st sent,
    hasError = (0 <? length errs) ->
    foldl deliver
      (advance (loop idPrefix sl m vIdx rs hasError routes errs) st sent)
      (expansionReplies exp vIdx rs) =
    {| state :=
         {| stations := sl;
            polylines := routes ++ rendered idPrefix m exp vIdx rs;
            loading := false;
            error := warningOr (error st) (errs ++ failures exp vIdx rs) |};
       issued := sent ++ requestsOf rs;
       waiting := None |}.
Proof.
  induction rs as [|r rest IH]; intros vIdx hasError routes errs st sent Hh.
  - simpl. rewrite advance_complete by done. by rewrite !app_nil_r.
  - simpl. unfold outcomeOf.
    destruct (stopIds r) as [|s ss] eqn:Hs.
    + simpl. by apply IH.
    + cbn [foldl]. unfold deliver at 2. cbn [advance exec waiting settle].
      cbn [withSignal state issued].
      destruct (expandRoute (exp vIdx)) as [ids|e] eqn:He.
      * rewrite IH by done. cbn [reported drawn app].
        f_equal; [|by rewrite <- app_assoc].
        f_equal. by destruct (1 <? length (buildPoints m ids));
          rewrite <- ?app_assoc.
      * rewrite advance_signal. rewrite IH.
        -- cbn [reported drawn app]. f_equal; [|by rewrite <- app_assoc].
           f_equal. by rewrite <- app_assoc.
        -- rewrite length_app. simpl. symmetry. apply Nat.ltb_lt. lia.
Qed.

Lemma cycle_ok idPrefix st rs dir exp sl :
  fetchStations dir = Fulfilled sl ->
  cycle idPrefix st rs dir exp =
  {| state :=
       {| stations := sl;
          polylines := rendered idPrefix (stationMapOf sl) exp 0 rs;
          loading := false;
          error := warningOf (failures exp 0 rs) |};
     issued := GetStations :: requestsOf rs;
     waiting := None |}.
Proof.
  intros Hd. unfold cycle. cbn [foldl]. unfold deliver at 2.
  cbn [advance exec buildRoutes waiting settle withSignal state issued].
  rewrite Hd. by rewrite loop_run.
Qed.

Lemma cycle_fatal idPrefix st rs dir exp e :
  fetchStations dir = Rejects e ->
  cycle idPrefix st rs dir exp =
  {| state :=
       {| stations := stations st; polylines := []; loading := false;
          error := Some GENERIC_WARNING |};
     issued := [GetStations];
     waiting := None |}.
Proof.
  intros Hd. unfold cycle. cbn [foldl]. unfold deliver at 2.
  cbn [advance exec buildRoutes waiting settle withSignal state issued].
  rewrite Hd. by rewrite deliver_done.
Qed.

Lemma same_point (a b a' b' : number) :
  negb (a =? a')%Z || negb (b =? b')%Z = bool_decide ((a, b) <> (a', b')).
Proof.
  destruct (Z.eqb_spec a a'), (Z.eqb_spec b b'); simpl;
    symmetry; try (apply bool_decide_eq_true; congruence).
  apply bool_decide_eq_false. subst. tauto.
Qed.

Lemma pushPoint_missing m points sid :
  m !! sid = None -> pushPoint m points sid = points.
Proof. unfold pushPoint. by intros ->. Qed.

Lemma pushPoint_found m points sid c :
  coordOf m sid = Some c ->
  pushPoint m points sid =
  if decide (last points = Some c) then points else points ++ [c].
Proof.
  unfold coordOf, pushPoint. destruct (m !! sid) as [st|]; [|done].
  simpl. intros [= <-]. destruct (last points) as [[a b]|] eqn:Hl.
  - simpl. rewrite same_point. destruct (decide ((a, b) = (lat st, lon st))) as [->|Hne].
    + rewrite bool_decide_eq_false_2 by tauto. by rewrite decide_True.
    + rewrite bool_decide_eq_true_2 by done.
      rewrite decide_False; [done|congruence].
  - by rewrite decide_False.
Qed.

Lemma foldl_pushPoint m ids :
  forall acc,
    foldl (pushPoint m) acc ids =
    acc ++ collapseAfter (last acc) (omap (coordOf m) ids).
Proof.
  induction ids as [|sid ids IH]; intros acc; simpl.
  - by rewrite app_nil_r.
  - destruct (coordOf m sid) as [c|] eqn:Hc.
    + rewrite (pushPoint_found _ _ _ _ Hc). simpl.
      destruct (decide (last acc = Some c)) as [Heq|Hne].
      * by rewrite IH.
      * rewrite IH, last_snoc, <- app_assoc. done.
    + rewrite pushPoint_missing; [apply IH|].
      unfold coordOf in Hc. by destruct (m !! sid).
Qed.

Lemma collapseAfter_cons x l :
  collapseAfter (Some x) l =
  match l with
  | [] => []
  | y :: _ => if decide (x = y) then collapseAfter (Some x) (tail l)
              else collapseAfter None l
  end.
Proof.
  destruct l as [|y l]; [done|]. simpl.
  destruct (decide (x = y)) as [->|Hne].
  - by rewrite decide_True.
  - rewrite decide_False by congruence. done.
Qed.

Lemma collapse_dedup l :
  collapseAfter None l = dedupConsecutive l.
Proof.
  induction l as [|x l IH]; [done|].
  change (collapseAfter None (x :: l)) with (x :: collapseAfter (Some x) l).
  cbn [dedupConsecutive]. destruct l as [|y l]; [done|].
  rewrite <- IH. clear IH. simpl.
  destruct (decide (x = y)) as [->|Hne].
  - by rewrite decide_True.
  - rewrite decide_False by congruence. done.
Qed.

Lemma collapseAfter_sublist l : forall prev, sublist (collapseAfter prev l) l.
Proof.
  induction l as [|c l IH]; intros prev; simpl; [constructor|].
  destruct (decide (prev = Some c)).
  - apply sublist_cons, IH.
  - apply sublist_skip, IH.
Qed.

Lemma collapseAfter_head l :
  forall prev p rest, collapseAfter prev l = p :: rest -> prev <> Some p.
Proof.
  induction l as [|c l IH]; intros prev p rest; simpl; [done|].
  destruct (decide (prev = Some c)) as [->|Hne].
  - apply IH.
  - intros [= <- _]. done.
Qed.

Lemma collapseAfter_adjacent l :
  forall prev i p q,
    collapseAfter prev l !! i = Some p ->
    collapseAfter prev l !! S i = Some q -> p <> q.
Proof.
  induction l as [|c l IH]; intros prev i p q; simpl; [done|].
  destruct (decide (prev = Some c)) as [->|Hne]; [apply IH|].
  destruct i as [|i]; simpl.
  - intros [= <-] Hq.
    destruct (collapseAfter (Some c) l) as [|q' r] eqn:Hr; [done|].
    simpl in Hq. injection Hq as ->.
    apply collapseAfter_head in Hr. congruence.
  - apply IH.
Qed.

Lemma collapseAfter_elem l :
  forall prev c, c ∈ l -> Some c = prev \/ c ∈ collapseAfter prev l.
Proof.
  induction l as [|x l IH]; intros prev c Hin; [by apply elem_of_nil in Hin|].
  simpl. apply elem_of_cons in Hin as [->|Hin].
  - destruct (decide (prev = Some x)); [by left|right; left].
  - destruct (decide (prev = Some x)) as [->|Hne].
    + apply IH, Hin.
    + destruct (IH (Some x) c Hin) as [[= ->]|H]; right; [left|by right].
Qed.

Lemma buildPoints_collapse m ids :
  buildPoints m ids = collapseAfter None (omap (coordOf m) ids).
Proof. unfold buildPoints. by rewrite foldl_pushPoint. Qed.

(** ** Routes taken one at a time *)

Lemma rendered_app idPrefix m exp l1 :
  forall vIdx l2,
    rendered idPrefix m exp vIdx (l1 ++ l2) =
    rendered idPrefix m exp vIdx l1
    ++ rendered idPrefix m exp (vIdx + length l1) l2.
Proof.
  induction l1 as [|r l1 IH]; intros vIdx l2; simpl.
  - by rewrite Nat.add_0_r.
  - rewrite IH, <- app_assoc. do 3 f_equal. lia.
Qed.

Lemma failures_app exp l1 :
  forall vIdx l2,
    failures exp vIdx (l1 ++ l2) =
    failures exp vIdx l1 ++ failures exp (vIdx + length l1) l2.
Proof.
  induction l1 as [|r l1 IH]; intros vIdx l2; simpl.
  - by rewrite Nat.add_0_r.
  - rewrite IH, <- app_assoc. do 3 f_equal. lia.
Qed.

Lemma requestsOf_app l1 l2 :
  requestsOf (l1 ++ l2) = requestsOf l1 ++ requestsOf l2.
Proof.
  induction l1 as [|r l1 IH]; simpl; [done|].
  destruct (stopIds r); by rewrite IH.
Qed.

Lemma split_at (rs : list RouteInput) i r :
  rs !! i = Some r ->
  rs = take i rs ++ r :: drop (S i) rs /\ length (take i rs) = i.
Proof.
  intros Hi. split; [by rewrite take_drop_middle|].
  apply length_take_le. apply lookup_lt_Some in Hi. lia.
Qed.

(** The polylines of a finished cycle, around the route at [i]. *)
Lemma rendered_at idPrefix m exp rs i r :
  rs !! i = Some r ->
  rendered idPrefix m exp 0 rs =
  rendered idPrefix m exp 0 (take i rs)
  ++ drawn idPrefix m r i (outcomeOf r (exp i))
  ++ rendered idPrefix m exp (S i) (drop (S i) rs).
Proof.
  intros Hi. destruct (split_at _ _ _ Hi) as [Hs Hl].
  rewrite Hs at 1. rewrite rendered_app. simpl. by rewrite Hl.
Qed.

Lemma failures_at exp rs i r :
  rs !! i = Some r ->
  failures exp 0 rs =
  failures exp 0 (take i rs)
  ++ reported r i (outcomeOf r (exp i))
  ++ failures exp (S i) (drop (S i) rs).
Proof.
  intros Hi. destruct (split_at _ _ _ Hi) as [Hs Hl].
  rewrite Hs at 1. rewrite failures_app. simpl. by rewrite Hl.
Qed.

Lemma requestsOf_at rs i r :
  rs !! i = Some r -> stopIds r <> [] ->
  PostExpandRoute (stopIds r) ∈ requestsOf rs.
Proof.
  intros Hi Hne. destruct (split_at _ _ _ Hi) as [Hs _].
  rewrite Hs, requestsOf_app. apply elem_of_app. right. simpl.
  destruct (stopIds r); [done|]. by left.
Qed.

Lemma outcome_expanded r h ids :
  stopIds r <> [] -> expandRoute h = Fulfilled ids ->
  outcomeOf r h = Expanded ids.
Proof.
  intros Hne He. unfold outcomeOf. rewrite He. by destruct (stopIds r).
Qed.

Lemma outcome_failed r h e :
  stopIds r <> [] -> expandRoute h = Rejects e -> outcomeOf r h = Failed.
Proof.
  intros Hne He. unfold outcomeOf. rewrite He. by destruct (stopIds r).
Qed.

(** Every polyline of a finished cycle belongs to a route that has
    stops, sits at that route's position and has two points or more. *)
Lemma rendered_inv idPrefix m exp rs :
  forall vIdx pl,
    pl ∈ rendered idPrefix m exp vIdx rs ->
    exists i r ids,
      rs !! i = Some r /\ stopIds r <> [] /\
      expandRoute (exp (vIdx + i)) = Fulfilled ids /\
      2 <= length (buildPoints m ids) /\
      pl = polylineOf idPrefix r (vIdx + i) (buildPoints m ids).
Proof.
  induction rs as [|r rest IH]; intros vIdx pl Hin; simpl in Hin.
  - by apply elem_of_nil in Hin.
  - apply elem_of_app in Hin as [Hin|Hin].
    + exists 0, r. rewrite Nat.add_0_r. unfold outcomeOf in Hin.
      destruct (stopIds r) as [|s ss] eqn:Hs;
        [by apply elem_of_nil in Hin|].
      destruct (expandRoute (exp vIdx)) as [ids|e] eqn:He;
        [|by apply elem_of_nil in Hin].
      simpl in Hin.
      destruct (1 <? length (buildPoints m ids)) eqn:Hlen;
        [|by apply elem_of_nil in Hin].
      apply list_elem_of_singleton in Hin. apply Nat.ltb_lt in Hlen.
      exists ids. repeat split; (done || lia).
    + destruct (IH _ _ Hin) as (i & r' & ids & Hi & Hne & He & Hlen & ->).
      exists (S i), r', ids.
      replace (vIdx + S i) with (S vIdx + i) by lia. done.
Qed.

(** ** Substrings *)

Lemma append_cons x (a b : string) : String x a +:+ b = String x (a +:+ b).
Proof. reflexivity. Qed.

Lemma append_assoc (a b c : string) : (a +:+ b) +:+ c = a +:+ (b +:+ c).
Proof.
  induction a as [|x a IH]; [done|]. by rewrite !append_cons, IH.
Qed.

Lemma append_nil_r (a : string) : a +:+ "" = a.
Proof.
  induction a as [|x a IH]; [done|]. by rewrite append_cons, IH.
Qed.

Lemma mentions_refl s : mentions s s.
Proof.
  exists "", "". rewrite append_nil_r. reflexivity.
Qed.

Lemma mentions_empty s : mentions "" s.
Proof. by exists "", s. Qed.

Lemma mentions_append_l n a b : mentions n a -> mentions n (a +:+ b).
Proof.
  intros (pre & post & ->). exists pre, (post +:+ b).
  by rewrite !append_assoc.
Qed.

Lemma mentions_append_r n a b : mentions n b -> mentions n (a +:+ b).
Proof.
  intros (pre & post & ->). exists (a +:+ pre), post.
  by rewrite !append_assoc.
Qed.

Lemma mentions_concat n sep (l : list string) x :
  x ∈ l -> mentions n x -> mentions n (String.concat sep l).
Proof.
  intros Hin Hm. induction l as [|y l IH]; [by apply elem_of_nil in Hin|].
  simpl. apply elem_of_cons in Hin as [->|Hin].
  - destruct l; [done|]. by apply mentions_append_l.
  - destruct l as [|z l]; [by apply elem_of_nil in Hin|].
    apply mentions_append_r, mentions_append_r. by apply IH.
Qed.

Lemma mentions_partialWarning n errs x :
  x ∈ errs -> mentions n x -> mentions n (partialWarning errs).
Proof.
  intros Hin Hm. unfold partialWarning.
  apply mentions_append_r, mentions_append_r, mentions_append_l.
  by eapply mentions_concat.
Qed.

Lemma mentions_label r vIdx : mentions (label r) (vehicleName r vIdx).
Proof.
  unfold vehicleName, str_or.
  destruct (String.eqb_spec (label r) "") as [->|_].
  - apply mentions_empty.
  - apply mentions_refl.
Qed.

Lemma warningOf_some errs x :
  x ∈ errs -> warningOf errs = Some (partialWarning errs).
Proof. destruct errs; [by intros ?%elem_of_nil|done]. Qed.

(** ** Failure isolation *)

(** C1. In a cycle whose directory fetch succeeds, a route [a] that
    expands to two points or more is drawn and a route [b] whose
    expansion fails is named in the warning, which is therefore not
    null; the failure stops nothing: the cycle still sends one expansion
    request for every route that has stops, and runs to its end. *)
Theorem route_failure_isolated idPrefix st rs dir exp sl a ra idsA b rb e :
  fetchStations dir = Fulfilled sl ->
  rs !! a = Some ra -> stopIds ra <> [] ->
  expandRoute (exp a) = Fulfilled idsA ->
  2 <= length (buildPoints (stationMapOf sl) idsA) ->
  rs !! b = Some rb -> stopIds rb <> [] ->
  expandRoute (exp b) = Rejects e ->
  let fin := cycle idPrefix st rs dir exp in
  polylineOf idPrefix ra a (buildPoints (stationMapOf sl) idsA)
    ∈ polylines (state fin) /\
  (exists w, error (state fin) = Some w /\
             mentions (vehicleName rb b) w /\ mentions (label rb) w) /\
  issued fin = GetStations :: requestsOf rs /\
  (forall j rj, rs !! j = Some rj -> stopIds rj <> [] ->
                PostExpandRoute (stopIds rj) ∈ issued fin) /\
  waiting fin = None.
Proof.
  intros Hd Ha Hsa Hea Hlen Hb Hsb Heb fin. subst fin.
  rewrite (cycle_ok _ _ _ _ _ _ Hd). cbn [state issued waiting polylines error].
  split; [|split; [|split; [done|split; [|done]]]].
  - rewrite (rendered_at _ _ _ _ _ _ Ha).
    rewrite (outcome_expanded _ _ _ Hsa Hea). cbn [drawn].
    replace (1 <? _) with true by (symmetry; apply Nat.ltb_lt; lia).
    apply elem_of_app. right. by left.
  - assert (Hin : routeError rb b ∈ failures exp 0 rs).
    { rewrite (failures_at _ _ _ _ Hb), (outcome_failed _ _ _ Hsb Heb).
      apply elem_of_app. right. by left. }
    exists (partialWarning (failures exp 0 rs)).
    split; [by eapply warningOf_some|].
    assert (Hname : mentions (vehicleName rb b) (routeError rb b))
      by apply mentions_append_l, mentions_refl.
    split; [by eapply mentions_partialWarning|].
    eapply mentions_partialWarning; [done|].
    apply mentions_append_l, mentions_label.
  - intros j rj Hj Hsj. right. by eapply requestsOf_at.
Qed.

(** ** Colours *)

(** C3, as stated, fails: a route without stops, for which no expansion
    is attempted, still takes a palette slot. With such a route first,
    the second route is the first attempted one and yet is drawn in the
    second colour. *)
Lemma skipped_route_takes_a_colour :
  let rs := [ {| label := "V0"; stopIds := [] |};
              {| label := "V1"; stopIds := [10; 20]%Z |} ] in
  let sl := [ {| id := 10; name := "A"; lat := 1%Z; lon := 1%Z;
                 is_active := Some true |};
              {| id := 20; name := "B"; lat := 2%Z; lon := 2%Z;
                 is_active := Some true |} ] in
  let exp := fun _ : nat =>
    Ok (Some {| expanded_station_ids := Some [10; 20]%Z |}) in
  let fin := cycle "vehicle-" initial rs (Ok (Some sl)) exp in
  attemptIndex rs 1 = 0 /\
  MAP_COLORS !! (attemptIndex rs 1 `mod` length MAP_COLORS) = Some "#34d399" /\
  polylines (state fin) =
    [ {| pid := "V1"; color := "#22d3ee"; points := [(1, 1); (2, 2)]%Z |} ] /\
  ~ (forall pl, pl ∈ polylines (state fin) ->
       MAP_COLORS !! (attemptIndex rs 1 `mod` length MAP_COLORS)
       = Some (color pl)).
Proof.
  assert (Hp : polylines (state (cycle "vehicle-" initial
      [ {| label := "V0"; stopIds := [] |};
        {| label := "V1"; stopIds := [10; 20]%Z |} ]
      (Ok (Some [ {| id := 10; name := "A"; lat := 1%Z; lon := 1%Z;
                     is_active := Some true |};
                  {| id := 20; name := "B"; lat := 2%Z; lon := 2%Z;
                     is_active := Some true |} ]))
      (fun _ : nat => Ok (Some {| expanded_station_ids := Some [10; 20]%Z |}))))
    = [ {| pid := "V1"; color := "#22d3ee"; points := [(1, 1); (2, 2)]%Z |} ])
    by (vm_compute; reflexivity).
  cbv zeta. rewrite Hp.
  split; [reflexivity|]. split; [reflexivity|]. split; [reflexivity|].
  intros H. specialize (H _ (list_elem_of_here _ _)). discriminate H.
Qed.

Lemma colorOf_palette i :
  MAP_COLORS !! (i `mod` length MAP_COLORS) = Some (colorOf i).
Proof.
  unfold colorOf.
  destruct (MAP_COLORS !! (i `mod` length MAP_COLORS)) eqn:H; [done|].
  apply lookup_ge_None in H.
  pose proof (Nat.mod_upper_bound i (length MAP_COLORS)) as Hm.
  simpl in *. lia.
Qed.

(** C3, amended. The colour of a polyline is the palette entry at the
    position of its route in the input, taken modulo the palette length;
    the position counts every route, also those skipped for having no
    stops. It depends on nothing else, so it is the same in every render
    of the same input order. *)
Theorem colour_by_input_position idPrefix st rs dir exp sl :
  fetchStations dir = Fulfilled sl ->
  let fin := cycle idPrefix st rs dir exp in
  (forall i r ids,
     rs !! i = Some r -> stopIds r <> [] ->
     expandRoute (exp i) = Fulfilled ids ->
     2 <= length (buildPoints (stationMapOf sl) ids) ->
     exists pl,
       pl ∈ polylines (state fin) /\
       pl = polylineOf idPrefix r i (buildPoints (stationMapOf sl) ids) /\
       MAP_COLORS !! (i `mod` length MAP_COLORS) = Some (color pl)) /\
  (forall pl,
     pl ∈ polylines (state fin) ->
     exists i r,
       rs !! i = Some r /\ stopIds r <> [] /\
       pid pl = str_or (label r) (numbered idPrefix i) /\
       MAP_COLORS !! (i `mod` length MAP_COLORS) = Some (color pl)) /\
  (forall sl' exp' i r pl pl',
     rs !! i = Some r ->
     pl ∈ drawn idPrefix (stationMapOf sl) r i (outcomeOf r (exp i)) ->
     pl' ∈ drawn idPrefix (stationMapOf sl') r i (outcomeOf r (exp' i)) ->
     color pl' = color pl).
Proof.
  intros Hd fin. subst fin. rewrite (cycle_ok _ _ _ _ _ _ Hd).
  cbn [state polylines]. split; [|split].
  - intros i r ids Hi Hs He Hlen. eexists. split; [|split; [done|]].
    + rewrite (rendered_at _ _ _ _ _ _ Hi).
      rewrite (outcome_expanded _ _ _ Hs He). cbn [drawn].
      replace (1 <? _) with true by (symmetry; apply Nat.ltb_lt; lia).
      apply elem_of_app. right. by left.
    + apply colorOf_palette.
  - intros pl Hin.
    destruct (rendered_inv _ _ _ _ _ _ Hin)
      as (i & r & ids & Hi & Hs & _ & _ & ->).
    exists i, r. simpl. repeat split; try done. apply colorOf_palette.
  - intros sl' exp' i r pl pl' _ Hpl Hpl'.
    destruct (outcomeOf r (exp i)) as [| |ids];
      try by apply elem_of_nil in Hpl.
    destruct (outcomeOf r (exp' i)) as [| |ids'];
      try by apply elem_of_nil in Hpl'.
    simpl in Hpl, Hpl'.
    destruct (1 <? _) in Hpl; [|by apply elem_of_nil in Hpl].
    destruct (1 <? _) in Hpl'; [|by apply elem_of_nil in Hpl'].
    apply list_elem_of_singleton in Hpl, Hpl'. by subst.
Qed.

(** ** Directory failure *)

Lemma length_append (a b : string) :
  String.length (a +:+ b) = String.length a + String.length b.
Proof.
  induction a as [|x a IH]; [done|].
  rewrite append_cons. simpl. by rewrite IH.
Qed.




(** ** Routes with fewer than two points *)

Lemma drawn_two_points idPrefix m exp rs vIdx pl :
  pl ∈ rendered idPrefix m exp vIdx rs -> 2 <= length (points pl).
Proof.
  intros Hin.
  destruct (rendered_inv _ _ _ _ _ _ Hin) as (i & r & ids & _ & _ & _ & H & ->).
  done.
Qed.

Lemma failures_none exp rs :
  forall vIdx,
    (forall j rj, rs !! j = Some rj -> outcomeOf rj (exp (vIdx + j)) <> Failed) ->
    failures exp vIdx rs = [].
Proof.
  induction rs as [|r rest IH]; intros vIdx H; [done|]. simpl.
  rewrite IH.
  - specialize (H 0 r eq_refl). rewrite Nat.add_0_r in H.
    by destruct (outcomeOf r (exp vIdx)).
  - intros j rj Hj. replace (S vIdx + j) with (vIdx + S j) by lia.
    by apply H.
Qed.

(** C5. A route whose expansion succeeds is drawn exactly when it is
    left with two points or more after lookup and collapsing; with fewer
    it adds nothing to the polylines and nothing to the warning, which
    stays null when no other route failed. *)
Theorem short_route_dropped_not_failed idPrefix st rs dir exp sl i r ids :
  fetchStations dir = Fulfilled sl ->
  rs !! i = Some r -> stopIds r <> [] ->
  expandRoute (exp i) = Fulfilled ids ->
  let fin := cycle idPrefix st rs dir exp in
  let m := stationMapOf sl in
  let pts := buildPoints m ids in
  polylines (state fin) =
    rendered idPrefix m exp 0 (take i rs)
    ++ (if bool_decide (2 <= length pts)
        then [polylineOf idPrefix r i pts] else [])
    ++ rendered idPrefix m exp (S i) (drop (S i) rs) /\
  (polylineOf idPrefix r i pts ∈ polylines (state fin)
   <-> 2 <= length pts) /\
  error (state fin) =
    warningOf (failures exp 0 (take i rs)
               ++ failures exp (S i) (drop (S i) rs)) /\
  ((forall j rj, rs !! j = Some rj -> j <> i ->
      outcomeOf rj (exp j) <> Failed) ->
   error (state fin) = None).
Proof.
  intros Hd Hi Hs He fin m pts. subst fin m pts.
  rewrite (cycle_ok _ _ _ _ _ _ Hd). cbn [state polylines error].
  set (m := stationMapOf sl). set (pts := buildPoints m ids).
  assert (Hpl : rendered idPrefix m exp 0 rs =
    rendered idPrefix m exp 0 (take i rs)
    ++ (if bool_decide (2 <= length pts)
        then [polylineOf idPrefix r i pts] else [])
    ++ rendered idPrefix m exp (S i) (drop (S i) rs)).
  { rewrite (rendered_at _ _ _ _ _ _ Hi), (outcome_expanded _ _ _ Hs He).
    cbn [drawn]. fold pts. do 2 f_equal.
    destruct (Nat.ltb_spec 1 (length pts)).
    - by rewrite bool_decide_eq_true_2 by lia.
    - by rewrite bool_decide_eq_false_2 by lia. }
  assert (Hf : failures exp 0 rs =
    failures exp 0 (take i rs) ++ failures exp (S i) (drop (S i) rs)).
  { by rewrite (failures_at _ _ _ _ Hi), (outcome_expanded _ _ _ Hs He). }
  split; [done|]. split; [|split].
  - split.
    + intros Hin. by apply drawn_two_points in Hin.
    + intros Hlen. rewrite Hpl, bool_decide_eq_true_2 by done.
      apply elem_of_app. right. by left.
  - by rewrite Hf.
  - intros Hothers. rewrite (failures_none exp rs 0); [done|].
    intros j rj Hj. simpl. destruct (decide (j = i)) as [->|Hne].
    + rewrite Hi in Hj. injection Hj as <-.
      by rewrite (outcome_expanded _ _ _ Hs He).
    + by apply Hothers.
Qed.

(** C9. A successful response whose body has no [expanded_station_ids]
    (or a null one) expands to the empty sequence: the route yields no
    point, adds no polyline and is not reported as failed. *)
Theorem missing_expansion_field_is_empty idPrefix st rs dir exp sl i r :
  fetchStations dir = Fulfilled sl ->
  rs !! i = Some r -> stopIds r <> [] ->
  exp i = Ok (Some {| expanded_station_ids := None |}) ->
  let fin := cycle idPrefix st rs dir exp in
  let m := stationMapOf sl in
  expandRoute (exp i) = Fulfilled [] /\
  buildPoints m [] = [] /\
  polylines (state fin) =
    rendered idPrefix m exp 0 (take i rs)
    ++ rendered idPrefix m exp (S i) (drop (S i) rs) /\
  error (state fin) =
    warningOf (failures exp 0 (take i rs)
               ++ failures exp (S i) (drop (S i) rs)) /\
  ((forall j rj, rs !! j = Some rj -> j <> i ->
      outcomeOf rj (exp j) <> Failed) ->
   error (state fin) = None).
Proof.
  intros Hd Hi Hs Hx fin m. subst fin m.
  assert (He : expandRoute (exp i) = Fulfilled []) by by rewrite Hx.
  rewrite (cycle_ok _ _ _ _ _ _ Hd). cbn [state polylines error].
  split; [done|]. split; [done|]. split; [|split].
  - by rewrite (rendered_at _ _ _ _ _ _ Hi), (outcome_expanded _ _ _ Hs He).
  - by rewrite (failures_at _ _ _ _ Hi), (outcome_expanded _ _ _ Hs He).
  - intros Hothers. rewrite (failures_none exp rs 0); [done|].
    intros j rj Hj. simpl. destruct (decide (j = i)) as [->|Hne].
    + rewrite Hi in Hj. injection Hj as <-.
      by rewrite (outcome_expanded _ _ _ Hs He).
    + by apply Hothers.
Qed.

(** ** Order and collapsing of points *)

(** C6. The points of a route are the coordinates of its expanded
    identifiers, looked up one by one in the order the expansion service
    returned them: an identifier the directory does not know is passed
    over, a point equal to the one before it is left out, and nothing is
    reordered or otherwise lost. *)
Theorem points_follow_expansion (m : gmap Z Station) (ids : list Z) :
  let coords := omap (coordOf m) ids in
  buildPoints m ids = dedupConsecutive coords /\
  sublist (buildPoints m ids) coords /\
  (forall i p q,
     buildPoints m ids !! i = Some p ->
     buildPoints m ids !! S i = Some q -> p <> q) /\
  (forall c, c ∈ coords <-> c ∈ buildPoints m ids) /\
  (forall before sid after,
     m !! sid = None ->
     buildPoints m (before ++ sid :: after) = buildPoints m (before ++ after)).
Proof.
  intros coords. subst coords. rewrite buildPoints_collapse.
  split; [apply collapse_dedup|]. split; [apply collapseAfter_sublist|].
  split; [apply collapseAfter_adjacent|]. split.
  - intros c. split.
    + intros Hin. by destruct (collapseAfter_elem _ None _ Hin).
    + intros Hin. eapply elem_of_sublist; [done|apply collapseAfter_sublist].
  - intros before sid after Hnone. rewrite !buildPoints_collapse.
    rewrite !omap_app. simpl. unfold coordOf at 2. by rewrite Hnone.
Qed.

(** ** Discipline of the cycle *)

Lemma exec_silent p : silent p -> forall st, exec true p st = (st, None).
Proof.
  induction p as [| | | | |k IH| |]; simpl; try done.
  intros Hs st. by apply IH.
Qed.

Lemma exec_finally aborted st :
  exec aborted finally_ st =
  (if aborted then st else setLoading false st, None).
Proof. by destruct aborted. Qed.

Lemma exec_complete sl hasError routes errs st :
  (exec false (complete sl hasError routes errs) st).2 = None.
Proof.
  unfold complete. simpl. by destruct (hasError && (0 <? length errs)).
Qed.

Lemma loop_quiet idPrefix sl m rs :
  forall vIdx hasError routes errs st,
    (exec false (loop idPrefix sl m vIdx rs hasError routes errs) st).2
      <> None ->
    (exec false (loop idPrefix sl m vIdx rs hasError routes errs) st).1 = st.
Proof.
  induction rs as [|r rest IH]; intros vIdx hasError routes errs st;
    cbn [loop].
  - by rewrite exec_complete.
  - destruct (stopIds r); [apply IH|done].
Qed.

Lemma complete_disciplined sl hasError routes errs :
  disciplined (complete sl hasError routes errs).
Proof.
  unfold complete. simpl. by destruct (hasError && (0 <? length errs)).
Qed.

Lemma loop_disciplined idPrefix sl m rs :
  forall vIdx hasError routes errs,
    disciplined (loop idPrefix sl m vIdx rs hasError routes errs).
Proof.
  induction rs as [|r rest IH]; intros vIdx hasError routes errs;
    cbn [loop].
  - apply complete_disciplined.
  - destruct (stopIds r) as [|s ss]; [apply IH|]. simpl.
    split; [done|]. split.
    + intros [ids|e] st; simpl; apply loop_quiet.
    + intros [ids|e]; simpl; apply IH.
Qed.

Lemma buildRoutes_start idPrefix rs st :
  exists k,
    exec false (buildRoutes idPrefix rs) st =
      (started st, Some (GetStations, AwaitingStations k)) /\
    tame (AwaitingStations k).
Proof.
  eexists. split; [reflexivity|]. simpl. split; [done|]. split.
  - intros [sl|e] st'; simpl; [apply loop_quiet|done].
  - intros [sl|e]; simpl; [apply loop_disciplined|done].
Qed.

Lemma exec_tame p :
  disciplined p ->
  forall st,
    match (exec false p st).2 with
    | Some (_, pend) => tame pend
    | None => True
    end.
Proof.
  induction p as [|v k IH|v k IH|v k IH|v k IH|k IH|k IH|ids k IH];
    simpl; intros Hd st; try done; try by apply IH.
Qed.

(** What a suspended function of a live cycle continues with. *)
Lemma settle_live pend r p :
  tame pend -> settle false pend r = Some p ->
  disciplined p /\
  forall st, (exec false p st).2 <> None -> (exec false p st).1 = st.
Proof.
  destruct pend as [k|k], r as [h|h]; simpl; try done;
    intros (_ & Hq & Hd) [= <-]; (split; [apply Hd|intros st; apply Hq]).
Qed.

(** What a suspended function of an aborted cycle continues with. *)
Lemma settle_aborted pend r :
  tame pend -> exists p, settle true pend r = Some p /\ silent p.
Proof.
  destruct pend as [k|k], r as [h|h]; simpl; intros (Hs & _ & _);
    eexists; (split; [reflexivity|apply Hs]).
Qed.

(** While a cycle left alone is waiting, it has made no update since it
    started waiting. *)
Lemma run_waiting replies :
  forall run,
    (forall pend, waiting run = Some pend -> tame pend) ->
    waiting (foldl deliver run replies) <> None ->
    state (foldl deliver run replies) = state run.
Proof.
  induction replies as [|r replies IH]; intros run Ht; [done|].
  cbn [foldl]. unfold deliver at 2 4.
  destruct (waiting run) as [pend|] eqn:Hp;
    [|apply IH; by rewrite Hp].
  destruct (settle false pend r) as [p|] eqn:Hsettle;
    [|apply IH; by rewrite Hp].
  destruct (settle_live _ _ _ (Ht _ eq_refl) Hsettle) as [Hd Hq].
  pose proof (exec_tame _ Hd (state run)) as Htame.
  specialize (Hq (state run)). unfold advance in *.
  destruct (exec false p (state run)) as [st' [[rq pend']|]] eqn:He;
    intros Hw.
  - simpl in Hq, Htame. rewrite IH; simpl.
    + by apply Hq.
    + by intros ? [= <-].
    + done.
  - by rewrite deliver_done in Hw.
Qed.

(** ** What a failed cycle leaves behind *)

(** C10. A cycle empties the polylines when it starts and replaces the
    locations only when it completes: while it waits for a service the
    locations are those it found, and when the directory fetch fails
    (the only way into the outer catch) they still are, next to the
    empty polylines. *)
Theorem failed_cycle_keeps_locations idPrefix st rs :
  state (advance (buildRoutes idPrefix rs) st []) = started st /\
  (forall replies,
     let run :=
       foldl deliver (advance (buildRoutes idPrefix rs) st []) replies in
     waiting run <> None ->
     stations (state run) = stations st /\ polylines (state run) = []) /\
  (forall dir exp e,
     fetchStations dir = Rejects e ->
     stations (state (cycle idPrefix st rs dir exp)) = stations st /\
     polylines (state (cycle idPrefix st rs dir exp)) = []) /\
  (forall dir exp sl,
     fetchStations dir = Fulfilled sl ->
     stations (state (cycle idPrefix st rs dir exp)) = sl).
Proof.
  split; [done|]. split; [|split].
  - intros replies run Hw. subst run.
    rewrite run_waiting; [done| |done].
    destruct (buildRoutes_start idPrefix rs st) as (k & Hk & Ht).
    unfold advance. rewrite Hk. by intros ? [= <-].
  - intros dir exp e Hd. by rewrite (cycle_fatal _ _ _ _ _ _ Hd).
  - intros dir exp sl Hd. by rewrite (cycle_ok _ _ _ _ _ _ Hd).
Qed.

(** ** The component keeps its invariants *)

Lemma elem_of_abort c o (s : gset nat) :
  c ∈ abort o s <-> o = Some c \/ c ∈ s.
Proof.
  destruct o as [c'|]; simpl.
  - rewrite elem_of_union, elem_of_singleton. split.
    + intros [->|H]; auto.
    + intros [[= ->]|H]; auto.
  - split; [auto|]. by intros [?|?].
Qed.

Lemma wf_mounted : wf mounted.
Proof. by split. Qed.

Lemma wf_runCleanup comp :
  wf comp ->
  wf (runCleanup comp) /\
  forall c pend, inflight comp !! c = Some pend ->
                 c ∈ aborted (runCleanup comp).
Proof.
  intros [Hi Hl Ha Hc Hr]. split; [split; simpl; try done|].
  - intros c pend Hin Hna. apply (Hl _ _ Hin).
    intros H. apply Hna, elem_of_abort. by right.
  - intros c [H|H]%elem_of_abort; auto.
  - intros c pend Hin. simpl. apply elem_of_abort.
    destruct (decide (c ∈ aborted comp)); [by right|].
    left. by eapply Hl.
Qed.

Lemma wf_effect idPrefix input comp :
  wf comp ->
  (forall c pend, inflight comp !! c = Some pend -> c ∈ aborted comp) ->
  wf (effect idPrefix input comp).
Proof.
  intros [Hi Hl Ha Hc Hr] Hall. destruct input as [rs|]; unfold effect.
  - destruct (buildRoutes_start idPrefix rs (view comp)) as (k & -> & Ht).
    split; simpl.
    + intros c pend. rewrite lookup_insert.
      destruct (decide (fresh comp = c)) as [<-|Hne].
      * intros [= <-]. split; [lia|done].
      * intros Hin. destruct (Hi _ _ Hin). split; [lia|done].
    + intros c pend. rewrite lookup_insert.
      destruct (decide (fresh comp = c)) as [<-|Hne]; [done|].
      intros Hin Hna. exfalso. apply Hna, elem_of_abort. right.
      by eapply Hall.
    + intros c [H|H]%elem_of_abort.
      * apply Hr in H. lia.
      * apply Ha in H. lia.
    + intros c [= <-]. lia.
    + intros c [= <-]. lia.
  - split; simpl; try done.
    intros c pend Hin Hna. exfalso. apply Hna. by eapply Hall.
Qed.

Lemma settled_aborted c r comp pend :
  inflight comp !! c = Some pend -> tame pend -> c ∈ aborted comp ->
  settled c r comp =
  {| view := view comp; abortRef := abortRef comp; cleanup := cleanup comp;
     aborted := aborted comp; fresh := fresh comp;
     inflight := delete c (inflight comp); sent := sent comp |}.
Proof.
  intros Hin Ht Hab. unfold settled. rewrite Hin.
  rewrite bool_decide_eq_true_2 by done.
  destruct (settle_aborted pend r Ht) as (p & -> & Hs).
  by rewrite (exec_silent _ Hs).
Qed.

Lemma wf_settled c r comp :
  wf comp -> wf (settled c r comp).
Proof.
  intros Hwf. pose proof Hwf as [Hi Hl Ha Hc Hr].
  destruct (inflight comp !! c) as [pend|] eqn:Hin;
    [|unfold settled; by rewrite Hin].
  destruct (Hi _ _ Hin) as [Hlt Ht].
  destruct (decide (c ∈ aborted comp)) as [Hab|Hna].
  - rewrite (settled_aborted _ _ _ _ Hin Ht Hab). split; simpl; try done.
    + intros c' pend' [_ H]%lookup_delete_Some. by apply Hi.
    + intros c' pend' [_ H]%lookup_delete_Some. by eapply Hl.
  - unfold settled. rewrite Hin, bool_decide_eq_false_2 by done.
    destruct (settle false pend r) as [p|] eqn:Hsettle; [|done].
    destruct (settle_live _ _ _ Ht Hsettle) as [Hd _].
    pose proof (exec_tame _ Hd (view comp)) as Htame.
    destruct (exec false p (view comp)) as [st' [[rq pend']|]];
      split; simpl in *; try done.
    + intros c' pend''. rewrite lookup_insert.
      destruct (decide (c = c')) as [<-|Hne]; [by intros [= <-]|apply Hi].
    + intros c' pend''. rewrite lookup_insert.
      destruct (decide (c = c')) as [<-|Hne]; [|by eapply Hl].
      intros _ _. by eapply Hl.
    + intros c' pend'' [_ H]%lookup_delete_Some. by apply Hi.
    + intros c' pend'' [_ H]%lookup_delete_Some. by eapply Hl.
Qed.

Lemma wf_step idPrefix comp ev : wf comp -> wf (step idPrefix comp ev).
Proof.
  intros Hwf. destruct ev as [input|c r]; simpl.
  - destruct (wf_runCleanup _ Hwf) as [Hwf' Hall]. by apply wf_effect.
  - by apply wf_settled.
Qed.

Lemma wf_steps idPrefix evs :
  forall comp, wf comp -> wf (steps idPrefix comp evs).
Proof.
  induction evs as [|ev evs IH]; intros comp Hwf; [done|].
  simpl. apply IH. by apply wf_step.
Qed.

(** ** A cycle inside the component *)

Lemma settled_frame c r comp :
  aborted (settled c r comp) = aborted comp /\
  fresh (settled c r comp) = fresh comp /\
  cleanup (settled c r comp) = cleanup comp.
Proof.
  unfold settled. destruct (inflight comp !! c) as [pend|]; [|done].
  destruct (settle _ pend r) as [p|]; [|done].
  by destruct (exec _ p (view comp)) as [st' o].
Qed.

Lemma settleAll_frame idPrefix evs :
  forall comp,
    aborted (steps idPrefix comp (settleAll evs)) = aborted comp /\
    fresh (steps idPrefix comp (settleAll evs)) = fresh comp.
Proof.
  induction evs as [|[c r] evs IH]; intros comp; [done|]. simpl.
  destruct (IH (settled c r comp)) as [-> ->].
  by destruct (settled_frame c r comp) as (-> & -> & _).
Qed.

Lemma tracks_settled c comp run c' r :
  tracks c comp run ->
  tracks c (settled c' r comp)
    (if decide (c' = c) then deliver run r else run).
Proof.
  intros [Hv Hw Hl Ho]. destruct (decide (c' = c)) as [->|Hne].
  - unfold settled, deliver. rewrite Hw.
    destruct (waiting run) as [pend|] eqn:Hp; [|by split; rewrite ?Hp].
    rewrite bool_decide_eq_false_2 by done.
    destruct (settle false pend r) as [p|]; [|by split; rewrite ?Hp].
    unfold advance. rewrite Hv.
    destruct (exec false p (state run)) as [st' [[rq pend']|]];
      split; simpl; try done.
    + by rewrite lookup_insert_eq.
    + intros c' pend'' Hin Hne. rewrite lookup_insert_ne in Hin by done.
      by eapply Ho.
    + by rewrite lookup_delete_eq.
    + intros c' pend'' [_ Hin]%lookup_delete_Some Hne. by eapply Ho.
  - destruct (inflight comp !! c') as [pend|] eqn:Hin.
    + destruct (Ho _ _ Hin Hne) as [Hab Ht].
      rewrite (settled_aborted _ _ _ _ Hin Ht Hab). split; simpl; try done.
      * by rewrite lookup_delete_ne.
      * intros c'' pend'' [_ Hin']%lookup_delete_Some Hne'. by eapply Ho.
    + unfold settled. rewrite Hin. by split.
Qed.

Lemma repliesTo_cons c c' r evs :
  repliesTo c ((c', r) :: evs) =
  if decide (c' = c) then r :: repliesTo c evs else repliesTo c evs.
Proof. unfold repliesTo. simpl. by destruct (decide (c' = c)). Qed.

Lemma tracks_steps idPrefix c evs :
  forall comp run,
    tracks c comp run ->
    tracks c (steps idPrefix comp (settleAll evs))
      (foldl deliver run (repliesTo c evs)).
Proof.
  induction evs as [|[c' r] evs IH]; intros comp run Ht; [done|].
  rewrite repliesTo_cons. simpl.
  pose proof (tracks_settled _ _ _ c' r Ht) as Ht'.
  destruct (decide (c' = c)); by apply IH.
Qed.

(** A new cycle starts tracked, every older one aborted. *)
Lemma tracks_trigger idPrefix comp rs :
  wf comp ->
  tracks (fresh comp) (step idPrefix comp (Trigger (Some rs)))
    (advance (buildRoutes idPrefix rs) (view comp) []).
Proof.
  intros Hwf. destruct (wf_runCleanup _ Hwf) as [[Hi Hl Ha Hc Hr] Hall].
  cbn [step]. unfold effect, advance.
  change (view (runCleanup comp)) with (view comp).
  destruct (buildRoutes_start idPrefix rs (view comp)) as (k & -> & Ht).
  split; simpl.
  - done.
  - by rewrite lookup_insert_eq.
  - intros [H|H]%elem_of_abort.
    + apply Hr in H. simpl in H. lia.
    + apply Ha in H. simpl in H. lia.
  - intros c pend Hin Hne. rewrite lookup_insert_ne in Hin by done.
    split; [|by eapply Hi]. apply elem_of_abort. right. by eapply Hall.
Qed.

(** After a null input no cycle is live: nothing in flight changes the
    state any more. *)
Lemma tracks_null idPrefix comp :
  wf comp ->
  tracks (fresh comp) (step idPrefix comp (Trigger None))
    {| state := cleared (view comp); issued := []; waiting := None |}.
Proof.
  intros Hwf. destruct (wf_runCleanup _ Hwf) as [[Hi Hl Ha Hc Hr] Hall].
  split; simpl.
  - done.
  - destruct (inflight comp !! fresh comp) as [pend|] eqn:Hin; [|done].
    apply Hi in Hin as [Hlt _]. simpl in Hlt. lia.
  - intros H%Ha. simpl in H. lia.
  - intros c pend Hin Hne. split; [by eapply Hall|by eapply Hi].
Qed.

(** A cycle that is still in flight has only started. *)
Lemma inflight_started idPrefix comp rs evs :
  wf comp ->
  let comp' :=
    steps idPrefix (step idPrefix comp (Trigger (Some rs))) (settleAll evs) in
  is_Some (inflight comp' !! fresh comp) ->
  view comp' = started (view comp).
Proof.
  intros Hwf comp' [pend Hin]. subst comp'.
  pose proof (tracks_steps idPrefix _ evs _ _ (tracks_trigger idPrefix _ rs Hwf))
    as [Hv Hw _ _].
  rewrite Hv. rewrite run_waiting.
  - done.
  - destruct (buildRoutes_start idPrefix rs (view comp)) as (k & Hk & Ht).
    unfold advance. rewrite Hk. by intros ? [= <-].
  - rewrite <- Hw, Hin. done.
Qed.

(** ** Cancellation *)

(** C2. When a second cycle is triggered while the first is still in
    flight, the first one's controller is aborted, its request settles
    as a rejection, and whenever that happens the state is not touched;
    at every moment from then on the state is the one the second cycle
    produces by itself, from the state before the first was triggered
    and the answers addressed to the second. *)
Theorem superseded_cycle_is_discarded idPrefix evs0 rs1 evs1 input2 evs2 :
  let comp0 := steps idPrefix mounted evs0 in
  let c1 := fresh comp0 in
  let comp1 :=
    steps idPrefix (step idPrefix comp0 (Trigger (Some rs1)))
      (settleAll evs1) in
  is_Some (inflight comp1 !! c1) ->
  let c2 := fresh comp1 in
  let comp2 := step idPrefix comp1 (Trigger input2) in
  let final := steps idPrefix comp2 (settleAll evs2) in
  c1 ∈ aborted comp2 /\ c1 ∈ aborted final /\
  (forall r, view (step idPrefix final (Settle c1 r)) = view final) /\
  (forall rs2,
     input2 = Some rs2 ->
     view final =
     state (foldl deliver
              (advance (buildRoutes idPrefix rs2) (view comp0) [])
              (repliesTo c2 evs2))).
Proof.
  intros comp0 c1 comp1 Hin c2 comp2 final.
  assert (Hwf0 : wf comp0) by apply wf_steps, wf_mounted.
  assert (Hwf1 : wf comp1) by by apply wf_steps, wf_step.
  assert (Hview : view comp1 = started (view comp0))
    by by apply inflight_started.
  destruct Hin as [pend Hin].
  destruct (wf_runCleanup _ Hwf1) as [_ Hall].
  assert (Hlt : c1 < c2) by (by destruct (wf_inflight _ Hwf1 _ _ Hin)).
  assert (Hab : c1 ∈ aborted comp2).
  { subst comp2. cbn [step]. specialize (Hall _ _ Hin).
    destruct input2 as [rs2|]; [|done]. unfold effect.
    destruct (exec false _ _) as [st' o]. simpl.
    apply elem_of_abort. by right. }
  assert (Htr : exists run,
             tracks c2 comp2 run /\
             forall rs2, input2 = Some rs2 ->
               run = advance (buildRoutes idPrefix rs2) (view comp0) []).
  { destruct input2 as [rs2|].
    - eexists. split; [by apply tracks_trigger|].
      intros ? [= <-]. by rewrite Hview.
    - eexists. split; [by apply tracks_null|done]. }
  destruct Htr as (run & Htr & Hrun).
  pose proof (tracks_steps idPrefix _ evs2 _ _ Htr) as Hfin. fold final in Hfin.
  split; [done|]. split; [|split].
  - subst final. by destruct (settleAll_frame idPrefix evs2 comp2) as [-> _].
  - intros r. cbn [step].
    pose proof (tracks_settled _ _ _ c1 r Hfin) as [Hv _ _ _].
    rewrite decide_False in Hv by lia. rewrite Hv. symmetry. apply Hfin.
  - intros rs2 Hrs2. rewrite (tr_view _ _ _ Hfin). by rewrite (Hrun _ Hrs2).
Qed.

(** ** Null input *)

(** C8, on the code: a null input that arrives while a cycle is in
    flight sends no request and empties locations, polylines and
    warning, but leaves [loading] as the cycle had set it; once the
    aborted cycle has settled nothing is in flight and [loading] is
    still true. *)
Theorem null_input_leaves_loading idPrefix rs r :
  let before := steps idPrefix mounted [Trigger (Some rs)] in
  let comp := steps idPrefix mounted [Trigger (Some rs); Trigger None] in
  let final := step idPrefix comp (Settle 0 r) in
  sent comp = sent before /\
  view comp =
    {| stations := []; polylines := []; loading := true; error := None |} /\
  view final =
    {| stations := []; polylines := []; loading := true; error := None |} /\
  inflight final = ∅.
Proof.
  intros before comp final. split; [done|]. split; [done|].
  assert (Hin : exists pend, inflight comp !! 0 = Some pend /\ tame pend).
  { destruct (buildRoutes_start idPrefix rs initial) as (k & Hk & Ht).
    exists (AwaitingStations k). split; [|done]. subst comp.
    cbn [steps foldl step]. unfold effect at 2.
    cbn [runCleanup view mounted fresh inflight]. rewrite Hk.
    cbn [effect runCleanup inflight fresh]. by rewrite lookup_insert_eq. }
  destruct Hin as (pend & Hin & Ht).
  assert (Hab : 0 ∈ aborted comp).
  { subst comp. cbn [steps foldl step]. unfold effect at 2.
    destruct (exec false _ _) as [st' o].
    cbn [effect runCleanup aborted cleanup]. apply elem_of_abort. by left. }
  subst final. cbn [step]. rewrite (settled_aborted _ _ _ _ Hin Ht Hab).
  split; [done|]. cbn [inflight]. apply map_eq. intros c.
  rewrite lookup_empty. destruct (decide (c = 0)) as [->|Hne].
  - by rewrite lookup_delete_eq.
  - rewrite lookup_delete_ne by done. subst comp.
    cbn [steps foldl step]. unfold effect at 2.
    destruct (exec false _ _) as [st' [[rq pend']|]];
      cbn [effect runCleanup inflight mounted fresh];
      by rewrite ?lookup_insert_ne, lookup_empty by done.
Qed.

(** ** Viewport *)

Lemma allPointsOf_concat pls : allPointsOf pls = concat (points <$> pls).
Proof.
  unfold allPointsOf.
  enough (H : forall acc,
    foldl (fun allPoints p => allPoints ++ points p) acc pls
    = acc ++ concat (points <$> pls)) by apply (H []).
  induction pls as [|p pls IH]; intros acc; simpl.
  - by rewrite app_nil_r.
  - by rewrite IH, app_assoc.
Qed.

Lemma covers_within b b' q : covers b q -> within b b' -> covers b' q.
Proof. unfold covers, within. lia. Qed.

Lemma within_refl b : within b b.
Proof. unfold within. lia. Qed.

Lemma within_trans a b c : within a b -> within b c -> within a c.
Proof. unfold within. lia. Qed.

Lemma extend_spec b q :
  within b (extend b q) /\ covers (extend b q) q /\
  forall b', within b b' -> covers b' q -> within (extend b q) b'.
Proof.
  unfold within, covers, extend. simpl.
  split; [lia|]. split; [lia|]. intros b'. lia.
Qed.

Lemma foldl_extend rest :
  forall b,
    within b (foldl extend b rest) /\
    (forall q, q ∈ rest -> covers (foldl extend b rest) q) /\
    (forall b', within b b' -> (forall q, q ∈ rest -> covers b' q) ->
                within (foldl extend b rest) b').
Proof.
  induction rest as [|p rest IH]; intros b; simpl.
  - split; [apply within_refl|]. split; [by intros q ?%elem_of_nil|auto].
  - destruct (IH (extend b p)) as (Hw & Hc & Hm).
    destruct (extend_spec b p) as (Hw' & Hc' & Hm').
    split; [by eapply within_trans|]. split.
    + intros q [->|Hin]%elem_of_cons; [by eapply covers_within|by apply Hc].
    + intros b' Hb Hall. apply Hm.
      * apply Hm'; [done|]. apply Hall. by left.
      * intros q Hq. apply Hall. by right.
Qed.

Lemma latLngBounds_smallest p rest :
  (forall q, q ∈ p :: rest -> covers (latLngBounds p rest) q) /\
  (forall b', (forall q, q ∈ p :: rest -> covers b' q) ->
              within (latLngBounds p rest) b').
Proof.
  unfold latLngBounds.
  destruct (foldl_extend rest (pointBounds p)) as (Hw & Hc & Hm). split.
  - intros q [->|Hin]%elem_of_cons; [|by apply Hc].
    eapply covers_within; [|done]. unfold covers, pointBounds. simpl. lia.
  - intros b' Hall. apply Hm.
    + specialize (Hall p (list_elem_of_here _ _)).
      unfold covers, within, pointBounds in *. simpl. lia.
    + intros q Hq. apply Hall. by right.
Qed.

Lemma find_first {A} (f : A -> bool) (l : list A) :
  forall i x,
    l !! i = Some x -> f x = true ->
    (forall j y, j < i -> l !! j = Some y -> f y = false) ->
    find f l = Some x.
Proof.
  induction l as [|a l IH]; intros i x Hi Hx Hbefore; [done|].
  destruct i as [|i]; simpl in *.
  - injection Hi as ->. by rewrite Hx.
  - rewrite (Hbefore 0 a) by (done || lia). apply (IH i); [done..|].
    intros j y Hj Hy. apply (Hbefore (S j)); [lia|done].
Qed.

Lemma find_nowhere {A} (f : A -> bool) (l : list A) :
  (forall x, x ∈ l -> f x = false) -> find f l = None.
Proof.
  induction l as [|a l IH]; intros H; [done|]. simpl.
  rewrite (H a) by by left. apply IH. intros x Hx. apply H. by right.
Qed.

Lemma truthy_coords s :
  truthy (lat s) && truthy (lon s) = true <-> lat s <> 0%Z /\ lon s <> 0%Z.
Proof.
  unfold truthy.
  destruct (Z.eqb_spec (lat s) 0), (Z.eqb_spec (lon s) 0); simpl;
    split; try done; intros []; done.
Qed.

Lemma find_withActive (f : Station -> option bool) sts :
  find (fun s => truthy (lat s) && truthy (lon s))
    (map (fun s => withActive (f s) s) sts)
  = (fun s => withActive (f s) s)
    <$> find (fun s => truthy (lat s) && truthy (lon s)) sts.
Proof.
  induction sts as [|s sts IH]; [done|]. simpl.
  by destruct (truthy (lat s) && truthy (lon s)).
Qed.

(** C7, as stated, fails twice. The fallback location is chosen by its
    coordinates alone: a closed station listed before an active one is
    the one the bounds are taken from. And the user route map, which
    always has its map data when it draws a map, centres it on the
    point given with that data, not on the fixed default. *)
Lemma fallback_ignores_active_flag :
  let s1 := {| id := 1; name := "closed"; lat := 1%Z; lon := 1%Z;
               is_active := Some false |} in
  let s2 := {| id := 2; name := "open"; lat := 2%Z; lon := 2%Z;
               is_active := Some true |} in
  firstActiveLocation [s1; s2] = Some s2 /\
  bounds [] [s1; s2] = Some (pointBounds (1%Z, 1%Z)) /\
  bounds [] [s1; s2] <> Some (pointBounds (lat s2, lon s2)) /\
  bounds [] [] = None /\
  UserRouteMap.center' (Some sampleMapData) (bounds [] [])
    = At (of_int 40, of_int 29) /\
  UserRouteMap.center' (Some sampleMapData) (bounds [] [])
    <> At DEFAULT_CENTER.
Proof.
  split; [reflexivity|]. split; [reflexivity|].
  split; [intros H; discriminate H|]. split; [reflexivity|].
  split; [reflexivity|]. intros H. discriminate H.
Qed.

(** C7, amended. The bounds are the smallest rectangle covering every
    point of every polyline. Without any point they are the single-point
    rectangle of the first location, in directory order, whose latitude
    and longitude are both non-zero, whatever its active flag. Without
    such a location the bounds are null, and the centre computed for
    the map is the fixed default in the planning map and the point
    given with the map data in the user route map. *)
Theorem viewport_of_render_state (st : RenderState) :
  let pls := polylines st in
  let sts := stations st in
  let pts := allPointsOf pls in
  pts = concat (points <$> pls) /\
  (pts <> [] ->
   exists b,
     bounds pls sts = Some b /\
     (forall q, q ∈ pts -> covers b q) /\
     (forall b', (forall q, q ∈ pts -> covers b' q) -> within b b')) /\
  (pts = [] ->
   forall i s,
     sts !! i = Some s -> lat s <> 0%Z -> lon s <> 0%Z ->
     (forall j s', j < i -> sts !! j = Some s' ->
                   lat s' = 0%Z \/ lon s' = 0%Z) ->
     bounds pls sts = Some (pointBounds (lat s, lon s))) /\
  (pts = [] ->
   (forall s, s ∈ sts -> lat s = 0%Z \/ lon s = 0%Z) ->
   bounds pls sts = None /\
   PlanningMap.center (bounds pls sts) = At DEFAULT_CENTER /\
   forall mapData,
     UserRouteMap.center' (Some mapData) (bounds pls sts)
     = At (UserRouteMap.center mapData)) /\
  (forall f : Station -> option bool,
     bounds pls (map (fun s => withActive (f s) s) sts) = bounds pls sts).
Proof.
  intros pls sts pts. split; [apply allPointsOf_concat|].
  unfold bounds. fold pts. clearbody pts pls sts.
  split; [|split; [|split]].
  - intros Hne. destruct pts as [|p rest]; [done|].
    destruct (latLngBounds_smallest p rest) as [Hc Hm].
    exists (latLngBounds p rest). by split; [|split].
  - intros -> i s Hi Hlat Hlon Hbefore.
    rewrite (find_first _ _ i s); [done|done| |].
    + by apply truthy_coords.
    + intros j s' Hj Hs'. destruct (Hbefore j s' Hj Hs') as [H|H];
        unfold truthy; rewrite H; simpl; by rewrite ?andb_false_r.
  - intros -> Hnone. rewrite find_nowhere; [done|].
    intros s Hs. destruct (Hnone s Hs) as [H|H];
      unfold truthy; rewrite H; simpl; by rewrite ?andb_false_r.
  - intros f. destruct pts; [|done]. rewrite find_withActive.
    by destruct (find _ sts).
Qed.

(** ** Instances on the sample inputs *)

Example samplePlanning_routes :
  PlanningMap.routesOf samplePlanning = sampleRoutes.
Proof. reflexivity. Qed.

Example sample_cycle :
  state (cycle PlanningMap.idPrefix initial sampleRoutes
           (Ok (Some sampleStations)) sampleExpansion) =
  {| stations := sampleStations;
     polylines :=
       [ {| pid := "V1"; color := "#34d399";
            points := [ (of_int 40, of_int 29); (of_int 41, of_int 30);
                        (of_int 42, of_int 28) ] |} ];
     loading := false;
     error := Some (GENERIC_WARNING +:+ " (V2: Rota hesaplanamadı)") |}.
Proof. vm_compute. reflexivity. Qed.

Lemma route_failure_isolated_witness :
  let fin := cycle "vehicle-" initial sampleRoutes
               (Ok (Some sampleStations)) sampleExpansion in
  polylineOf "vehicle-" {| label := "V1"; stopIds := [10; 20]%Z |} 0
    (buildPoints (stationMapOf sampleStations) [10; 15; 15; 99; 20]%Z)
    ∈ polylines (state fin) /\
  (exists w, error (state fin) = Some w /\
             mentions (vehicleName {| label := "V2"; stopIds := [20; 10]%Z |} 1) w /\
             mentions "V2" w) /\
  issued fin = GetStations :: requestsOf sampleRoutes /\
  (forall j rj, sampleRoutes !! j = Some rj -> stopIds rj <> [] ->
                PostExpandRoute (stopIds rj) ∈ issued fin) /\
  waiting fin = None.
Proof.
  apply (route_failure_isolated "vehicle-" initial sampleRoutes
           (Ok (Some sampleStations)) sampleExpansion sampleStations
           0 {| label := "V1"; stopIds := [10; 20]%Z |}
           [10; 15; 15; 99; 20]%Z
           1 {| label := "V2"; stopIds := [20; 10]%Z |}
           (Err "no path")).
  - reflexivity.
  - reflexivity.
  - discriminate.
  - reflexivity.
  - vm_compute. lia.
  - reflexivity.
  - discriminate.
  - reflexivity.
Defined.

Lemma colour_by_input_position_witness :
  exists pl,
    pl ∈ polylines (state (cycle "vehicle-" initial sampleRoutes
                             (Ok (Some sampleStations)) sampleExpansion)) /\
    pl = polylineOf "vehicle-" {| label := "V1"; stopIds := [10; 20]%Z |} 0
           (buildPoints (stationMapOf sampleStations)
              [10; 15; 15; 99; 20]%Z) /\
    MAP_COLORS !! (0 `mod` length MAP_COLORS) = Some (color pl).
Proof.
  destruct (colour_by_input_position "vehicle-" initial sampleRoutes
              (Ok (Some sampleStations)) sampleExpansion sampleStations
              eq_refl) as (H & _ & _).
  apply (H 0 {| label := "V1"; stopIds := [10; 20]%Z |}
           [10; 15; 15; 99; 20]%Z).
  - reflexivity.
  - discriminate.
  - reflexivity.
  - vm_compute. lia.
Defined.


Lemma short_route_dropped_not_failed_witness :
  let fin := cycle "vehicle-" initial singleStop
               (Ok (Some sampleStations)) echoExpansion in
  let pts := buildPoints (stationMapOf sampleStations) [10]%Z in
  (polylineOf "vehicle-" {| label := "V1"; stopIds := [10]%Z |} 0 pts
     ∈ polylines (state fin) <-> 2 <= length pts) /\
  error (state fin) = None.
Proof.
  destruct (short_route_dropped_not_failed "vehicle-" initial singleStop
              (Ok (Some sampleStations)) echoExpansion sampleStations
              0 {| label := "V1"; stopIds := [10]%Z |} [10]%Z)
    as (_ & Hiff & _ & Hnone).
  - reflexivity.
  - reflexivity.
  - discriminate.
  - reflexivity.
  - split; [exact Hiff|]. apply Hnone.
    intros [|j] rj Hj Hne; [by destruct Hne|discriminate Hj].
Defined.

Lemma missing_expansion_field_is_empty_witness :
  let fin := cycle "vehicle-" initial singleStop
               (Ok (Some sampleStations)) bareExpansion in
  expandRoute (bareExpansion 0) = Fulfilled [] /\
  polylines (state fin) = [] /\
  error (state fin) = None.
Proof.
  destruct (missing_expansion_field_is_empty "vehicle-" initial singleStop
              (Ok (Some sampleStations)) bareExpansion sampleStations
              0 {| label := "V1"; stopIds := [10]%Z |})
    as (He & _ & Hpl & _ & Hnone).
  - reflexivity.
  - reflexivity.
  - discriminate.
  - reflexivity.
  - split; [exact He|]. split; [exact Hpl|]. apply Hnone.
    intros [|j] rj Hj Hne; [by destruct Hne|discriminate Hj].
Defined.

Lemma points_follow_expansion_witness :
  buildPoints (stationMapOf sampleStations) ([10] ++ 99 :: [20])%Z
  = buildPoints (stationMapOf sampleStations) ([10] ++ [20])%Z.
Proof.
  destruct (points_follow_expansion (stationMapOf sampleStations) [])
    as (_ & _ & _ & _ & H).
  apply H. reflexivity.
Defined.

Lemma failed_cycle_keeps_locations_witness :
  let run := foldl deliver
               (advance (buildRoutes "vehicle-" sampleRoutes) sampleState [])
               [] in
  let fin := cycle "vehicle-" sampleState sampleRoutes
               (Status (Some "down")) sampleExpansion in
  (stations (state run) = sampleStations /\ polylines (state run) = []) /\
  (stations (state fin) = sampleStations /\ polylines (state fin) = []) /\
  stations (state (cycle "vehicle-" initial sampleRoutes
                     (Ok (Some sampleStations)) sampleExpansion))
  = sampleStations.
Proof.
  destruct (failed_cycle_keeps_locations "vehicle-" sampleState sampleRoutes)
    as (_ & Hwait & Hfail & _).
  destruct (failed_cycle_keeps_locations "vehicle-" initial sampleRoutes)
    as (_ & _ & _ & Hok).
  split; [|split].
  - apply (Hwait []). discriminate.
  - apply (Hfail (Status (Some "down")) sampleExpansion (Err "down")).
    reflexivity.
  - apply (Hok (Ok (Some sampleStations)) sampleExpansion sampleStations).
    reflexivity.
Defined.

Lemma superseded_cycle_is_discarded_witness :
  let comp1 := step "vehicle-" mounted (Trigger (Some sampleRoutes)) in
  let comp2 := step "vehicle-" comp1 (Trigger (Some otherRoutes)) in
  let answers :=
    [ (0, StationsReply (Ok (Some sampleStations)));
      (1, StationsReply (Ok (Some sampleStations)));
      (0, ExpandReply (sampleExpansion 0));
      (1, ExpandReply (Ok (Some {| expanded_station_ids :=
                                     Some [15; 10]%Z |}))) ] in
  let final := steps "vehicle-" comp2 (settleAll answers) in
  is_Some (inflight comp1 !! 0) /\
  0 ∈ aborted comp2 /\ 0 ∈ aborted final /\
  (forall r, view (step "vehicle-" final (Settle 0 r)) = view final) /\
  (forall rs2,
     Some otherRoutes = Some rs2 ->
     view final =
     state (foldl deliver
              (advance (buildRoutes "vehicle-" rs2) initial [])
              (repliesTo 1 answers))).
Proof.
  assert (H : is_Some (inflight (step "vehicle-" mounted
                                   (Trigger (Some sampleRoutes))) !! 0))
    by (eexists; reflexivity).
  split; [exact H|].
  exact (superseded_cycle_is_discarded "vehicle-" [] sampleRoutes []
           (Some otherRoutes) _ H).
Defined.

Example superseded_final_view :
  view (steps "vehicle-" mounted
          [ Trigger (Some sampleRoutes); Trigger (Some otherRoutes);
            Settle 0 (StationsReply (Ok (Some sampleStations)));
            Settle 1 (StationsReply (Ok (Some sampleStations)));
            Settle 0 (ExpandReply (sampleExpansion 0));
            Settle 1 (ExpandReply (Ok (Some {| expanded_station_ids :=
                                                 Some [15; 10]%Z |}))) ]) =
  {| stations := sampleStations;
     polylines :=
       [ {| pid := "V7"; color := "#34d399";
            points := [ (of_int 41, of_int 30); (of_int 40, of_int 29) ] |} ];
     loading := false;
     error := None |}.
Proof. vm_compute. reflexivity. Qed.

Lemma viewport_of_render_state_witness :
  (exists b,
     bounds (polylines sampleState) (stations sampleState) = Some b /\
     (forall q, q ∈ allPointsOf (polylines sampleState) -> covers b q) /\
     (forall b', (forall q, q ∈ allPointsOf (polylines sampleState) ->
                            covers b' q) -> within b b')) /\
  bounds [] sampleStations = Some (pointBounds (of_int 40, of_int 29)) /\
  (bounds [] [] = None /\
   PlanningMap.center (bounds [] []) = At DEFAULT_CENTER /\
   forall mapData,
     UserRouteMap.center' (Some mapData) (bounds [] [])
     = At (UserRouteMap.center mapData)).
Proof.
  destruct (viewport_of_render_state sampleState) as (_ & Hfit & _).
  destruct (viewport_of_render_state (started sampleState))
    as (_ & _ & Hfirst & _).
  destruct (viewport_of_render_state initial) as (_ & _ & _ & Hnone & _).
  split; [|split].
  - apply Hfit. discriminate.
  - refine (Hfirst eq_refl 0 _ eq_refl _ _ _).
    + discriminate.
    + discriminate.
    + intros j s' Hj. lia.
  - apply Hnone; [reflexivity|]. intros s Hs. by apply elem_of_nil in Hs.
Defined.

Example planning_then_null r :
  loading (view (steps PlanningMap.idPrefix mounted
                   [ PlanningMap.trigger (Some samplePlanning);
                     PlanningMap.trigger None;
                     Settle 0 r ])) = true.
Proof.
  destruct r as [h|h]; vm_compute; reflexivity.
Qed.

(** * Further properties *)

(** ** The directory as a map *)

Lemma foldl_set_lookup (sl : list Station) (k : Z) :
  forall m : gmap Z Station,
    foldl (fun m st => <[id st := st]> m) m sl !! k =
    match last (filter (fun st => id st = k) sl) with
    | Some st => Some st
    | None => m !! k
    end.
Proof.
  induction sl as [|s sl IH]; intros m; [done|].
  cbn [foldl]. rewrite IH, filter_cons.
  destruct (decide (id s = k)) as [Hk|Hk].
  - rewrite last_cons.
    destruct (last (filter (fun st => id st = k) sl)); [done|].
    by rewrite Hk, lookup_insert_eq.
  - destruct (last (filter (fun st => id st = k) sl)); [done|].
    by rewrite lookup_insert_ne.
Qed.

(** X1. Looking an identifier up in the station map gives the last
    station of the directory answer that carries it: a later duplicate
    replaces an earlier one, and an identifier is known exactly when
    some station of the answer carries it. *)
Theorem directory_last_duplicate_wins (sl : list Station) (k : Z) :
  stationMapOf sl !! k = last (filter (fun st => id st = k) sl) /\
  (is_Some (stationMapOf sl !! k) <-> exists st, st ∈ sl /\ id st = k) /\
  (forall st, stationMapOf sl !! k = Some st -> st ∈ sl /\ id st = k).
Proof.
  assert (H : stationMapOf sl !! k = last (filter (fun st => id st = k) sl)).
  { unfold stationMapOf. rewrite foldl_set_lookup, lookup_empty.
    by destruct (last _). }
  split; [done|]. rewrite H. split.
  - rewrite last_is_Some. split.
    + intros Hne. destruct (filter _ sl) as [|st l] eqn:Hf; [done|].
      assert (Hst : st ∈ filter (fun st => id st = k) sl)
        by (rewrite Hf; by left).
      apply list_elem_of_filter in Hst. exists st. tauto.
    + intros (st & Hin & Hk) Hnil.
      assert (Hst : st ∈ filter (fun st => id st = k) sl)
        by (apply list_elem_of_filter; tauto).
      rewrite Hnil in Hst. by apply elem_of_nil in Hst.
  - intros st Hl. apply last_Some_elem_of in Hl.
    apply list_elem_of_filter in Hl. tauto.
Qed.

(** ** The warning and the polylines of a completed cycle *)

Lemma failures_elem exp rs :
  forall vIdx x,
    x ∈ failures exp vIdx rs <->
    exists i r e,
      rs !! i = Some r /\ stopIds r <> [] /\
      expandRoute (exp (vIdx + i)) = Rejects e /\
      x = routeError r (vIdx + i).
Proof.
  induction rs as [|r rest IH]; intros vIdx x; simpl.
  - split; [by intros ?%elem_of_nil|]. by intros (i & r & e & ? & _).
  - rewrite elem_of_app, IH. split.
    + intros [Hin|(i & r' & e & Hi & Hs & He & ->)].
      * unfold outcomeOf in Hin.
        destruct (stopIds r) as [|s ss] eqn:Hs;
          [by apply elem_of_nil in Hin|].
        destruct (expandRoute (exp vIdx)) as [ids|e] eqn:He;
          [by apply elem_of_nil in Hin|].
        apply list_elem_of_singleton in Hin.
        exists 0, r, e. rewrite Nat.add_0_r, Hs. by repeat split.
      * exists (S i), r', e.
        replace (vIdx + S i) with (S vIdx + i) by lia. done.
    + intros ([|i] & r' & e & Hi & Hs & He & ->).
      * left. simpl in Hi. injection Hi as <-.
        rewrite Nat.add_0_r in *.
        rewrite (outcome_failed _ _ _ Hs He). by left.
      * right. exists i, r', e.
        replace (S vIdx + i) with (vIdx + S i) by lia. done.
Qed.

Lemma indexedFrom_lookup rs :
  forall vIdx i,
    indexedFrom vIdx rs !! i = (fun r => (vIdx + i, r)) <$> rs !! i.
Proof.
  induction rs as [|r rest IH]; intros vIdx i; [done|].
  destruct i as [|i]; simpl.
  - by rewrite Nat.add_0_r.
  - rewrite IH. by replace (S vIdx + i) with (vIdx + S i) by lia.
Qed.

Lemma failureLine_spec exp i r x :
  failureLine exp (i, r) = Some x <->
  stopIds r <> [] /\ (exists e, expandRoute (exp i) = Rejects e) /\
  x = routeError r i.
Proof.
  unfold failureLine. simpl. destruct (stopIds r) as [|s ss]; simpl.
  - split; [done|]. by intros [? _].
  - destruct (expandRoute (exp i)) as [ids|e]; split.
    + done.
    + by intros (_ & [e He] & _).
    + intros [= <-]. repeat split; [done|by exists e].
    + by intros (_ & _ & ->).
Qed.

Lemma failures_lines exp rs :
  forall vIdx,
    failures exp vIdx rs = omap (failureLine exp) (indexedFrom vIdx rs).
Proof.
  induction rs as [|r rest IH]; intros vIdx; [done|].
  simpl. rewrite IH. unfold outcomeOf, failureLine. simpl.
  destruct (stopIds r); [done|]. by destruct (expandRoute (exp vIdx)).
Qed.

(** X2. In a cycle whose directory fetch succeeds the warning is null
    exactly when every expansion that was attempted succeeded; otherwise
    it is the generic message followed by the lines of the failed
    routes, in input order: one line for each route that has stops and
    whose expansion was rejected, also when two of them read alike, and
    no line for any other route. *)
Theorem warning_lists_failed_routes idPrefix st rs dir exp sl :
  fetchStations dir = Fulfilled sl ->
  let fin := cycle idPrefix st rs dir exp in
  let lines := omap (failureLine exp) (indexedFrom 0 rs) in
  error (state fin) = warningOf lines /\
  (forall i, indexedFrom 0 rs !! i = (fun r => (i, r)) <$> rs !! i) /\
  (forall i r x,
     failureLine exp (i, r) = Some x <->
     stopIds r <> [] /\ (exists e, expandRoute (exp i) = Rejects e) /\
     x = routeError r i) /\
  (forall x,
     x ∈ lines <->
     exists i r e,
       rs !! i = Some r /\ stopIds r <> [] /\
       expandRoute (exp i) = Rejects e /\ x = routeError r i) /\
  (error (state fin) = None <->
   forall i r, rs !! i = Some r -> stopIds r <> [] ->
               exists ids, expandRoute (exp i) = Fulfilled ids).
Proof.
  intros Hd fin lines. subst fin lines. rewrite (cycle_ok _ _ _ _ _ _ Hd).
  cbn [state error]. rewrite <- failures_lines.
  split; [done|]. split; [apply indexedFrom_lookup|].
  split; [apply failureLine_spec|]. split; [apply failures_elem|].
  split.
  - intros Hnone i r Hi Hs.
    destruct (expandRoute (exp i)) as [ids|e] eqn:He; [by exists ids|].
    assert (Hin : routeError r i ∈ failures exp 0 rs)
      by (apply failures_elem; by exists i, r, e).
    destruct (failures exp 0 rs); [by apply elem_of_nil in Hin|done].
  - intros Hall. destruct (failures exp 0 rs) as [|x l] eqn:Hf; [done|].
    assert (Hin : x ∈ failures exp 0 rs) by (rewrite Hf; by left).
    apply failures_elem in Hin as (i & r & e & Hi & Hs & He & _).
    destruct (Hall i r Hi Hs) as [ids Hids]. simpl in He. congruence.
Qed.

Lemma rendered_slots idPrefix m exp rs :
  forall vIdx,
    sublist ((fun pl => (pid pl, color pl)) <$> rendered idPrefix m exp vIdx rs)
      (routeSlotsFrom idPrefix vIdx rs).
Proof.
  induction rs as [|r rest IH]; intros vIdx; simpl; [constructor|].
  rewrite fmap_app.
  destruct (outcomeOf r (exp vIdx)) as [| |ids]; simpl;
    try (apply sublist_cons, IH).
  destruct (1 <? length (buildPoints m ids)); simpl.
  - apply sublist_skip, IH.
  - apply sublist_cons, IH.
Qed.



Lemma coordOf_station sl sid q :
  coordOf (stationMapOf sl) sid = Some q ->
  exists s, s ∈ sl /\ id s = sid /\ q = (lat s, lon s).
Proof.
  unfold coordOf. unfold stationMapOf.
  rewrite foldl_set_lookup, lookup_empty.
  destruct (last (filter (fun st => id st = sid) sl)) as [s|] eqn:Hl;
    [|done].
  intros [= <-]. apply last_Some_elem_of, list_elem_of_filter in Hl.
  exists s. tauto.
Qed.

(** X4. Every polyline of a completed cycle has two points or more, no
    two consecutive points alike, and each of its points is the
    position of a station of the directory answer of that cycle. *)
Theorem polyline_points_come_from_directory idPrefix st rs dir exp sl :
  fetchStations dir = Fulfilled sl ->
  let fin := cycle idPrefix st rs dir exp in
  forall pl,
    pl ∈ polylines (state fin) ->
    2 <= length (points pl) /\
    (forall q, q ∈ points pl -> exists s, s ∈ sl /\ q = (lat s, lon s)) /\
    (forall i p q,
       points pl !! i = Some p -> points pl !! S i = Some q -> p <> q).
Proof.
  intros Hd fin pl. subst fin. rewrite (cycle_ok _ _ _ _ _ _ Hd).
  cbn [state polylines]. intros Hin.
  destruct (rendered_inv _ _ _ _ _ _ Hin)
    as (i & r & ids & _ & _ & _ & Hlen & ->).
  cbn [points polylineOf]. split; [done|].
  rewrite buildPoints_collapse. split.
  - intros q Hq.
    eapply elem_of_sublist in Hq; [|apply collapseAfter_sublist].
    apply list_elem_of_omap in Hq as (sid & _ & Hc).
    destruct (coordOf_station _ _ _ Hc) as (s & Hs & _ & ->). by exists s.
  - apply collapseAfter_adjacent.
Qed.

(** ** What a cycle does not depend on *)

Lemma outcome_sameFate r h h' :
  sameFate (expandRoute h) (expandRoute h') -> outcomeOf r h = outcomeOf r h'.
Proof.
  unfold outcomeOf, sameFate. destruct (stopIds r); [done|].
  destruct (expandRoute h), (expandRoute h'); intros H; by subst.
Qed.

Lemma rendered_sameFate idPrefix m exp exp' rs :
  (forall i, sameFate (expandRoute (exp i)) (expandRoute (exp' i))) ->
  forall vIdx,
    rendered idPrefix m exp vIdx rs = rendered idPrefix m exp' vIdx rs /\
    failures exp vIdx rs = failures exp' vIdx rs.
Proof.
  intros Hs. induction rs as [|r rest IH]; intros vIdx; simpl; [done|].
  destruct (IH (S vIdx)) as [-> ->].
  by rewrite (outcome_sameFate r _ _ (Hs vIdx)).
Qed.

(** X5. Why a request failed never reaches the state: two cycles over
    the same routes whose answers differ only in the kind of failure or
    in the detail sent with it send the same requests and end in the
    same state. *)
Theorem failure_reasons_discarded idPrefix st rs dir dir' exp exp' :
  sameFate (fetchStations dir) (fetchStations dir') ->
  (forall i, sameFate (expandRoute (exp i)) (expandRoute (exp' i))) ->
  cycle idPrefix st rs dir exp = cycle idPrefix st rs dir' exp'.
Proof.
  intros Hd He.
  destruct (fetchStations dir) as [sl|e] eqn:H1,
           (fetchStations dir') as [sl'|e'] eqn:H2; simpl in Hd; try done.
  - subst sl'. rewrite (cycle_ok _ _ _ _ _ _ H1), (cycle_ok _ _ _ _ _ _ H2).
    by destruct (rendered_sameFate idPrefix (stationMapOf sl) _ _ rs He 0)
      as [-> ->].
  - by rewrite (cycle_fatal _ _ _ _ _ _ H1), (cycle_fatal _ _ _ _ _ _ H2).
Qed.

Lemma no_stops_nothing idPrefix m exp rs :
  (forall r, r ∈ rs -> stopIds r = []) ->
  forall vIdx,
    rendered idPrefix m exp vIdx rs = [] /\ failures exp vIdx rs = [] /\
    requestsOf rs = [].
Proof.
  induction rs as [|r rest IH]; intros H vIdx; simpl; [done|].
  destruct (IH (fun r' Hr' => H r' (list_elem_of_further _ _ _ Hr')) (S vIdx))
    as (-> & -> & ->).
  unfold outcomeOf. by rewrite (H r (list_elem_of_here _ _)).
Qed.

(** X6. A plan without any stop, in particular one without routes,
    still fetches the directory, and nothing else: the cycle ends with
    all stations of the answer, no polyline and no warning. *)
Theorem plan_without_stops idPrefix st rs dir exp sl :
  fetchStations dir = Fulfilled sl ->
  (forall r, r ∈ rs -> stopIds r = []) ->
  cycle idPrefix st rs dir exp =
  {| state := {| stations := sl; polylines := []; loading := false;
                 error := None |};
     issued := [GetStations];
     waiting := None |}.
Proof.
  intros Hd Hnone. rewrite (cycle_ok _ _ _ _ _ _ Hd).
  by destruct (no_stops_nothing idPrefix (stationMapOf sl) exp rs Hnone 0)
    as (-> & -> & ->).
Qed.

(** X7. Of the state a cycle starts from only the locations can
    survive it, and only when the directory fetch fails: cycles that
    start from states with the same locations end alike, and running a
    cycle again on its own result with the same answers changes
    nothing. *)
Theorem previous_state_matters_only_by_locations idPrefix st rs dir exp :
  (forall st',
     stations st' = stations st ->
     cycle idPrefix st' rs dir exp = cycle idPrefix st rs dir exp) /\
  (forall sl st',
     fetchStations dir = Fulfilled sl ->
     cycle idPrefix st' rs dir exp = cycle idPrefix st rs dir exp) /\
  cycle idPrefix (state (cycle idPrefix st rs dir exp)) rs dir exp
  = cycle idPrefix st rs dir exp.
Proof.
  destruct (fetchStations dir) as [sl|e] eqn:Hd.
  - rewrite (cycle_ok _ st _ _ _ _ Hd). split; [|split].
    + intros st' _. by rewrite (cycle_ok _ st' _ _ _ _ Hd).
    + intros sl' st' _. by rewrite (cycle_ok _ st' _ _ _ _ Hd).
    + by rewrite (cycle_ok _ _ _ _ _ _ Hd).
  - rewrite (cycle_fatal _ st _ _ _ _ Hd). split; [|split].
    + intros st' Hst. by rewrite (cycle_fatal _ st' _ _ _ _ Hd), Hst.
    + done.
    + by rewrite (cycle_fatal _ _ _ _ _ _ Hd).
Qed.

(** ** Live and cancelled cycles of the component *)

Lemma reachable_wf idPrefix evs : wf (steps idPrefix mounted evs).
Proof. apply wf_steps, wf_mounted. Qed.

(** X8. At any moment at most one cycle of the component is live, and
    it is the one the next cleanup will abort. *)
Theorem one_live_cycle idPrefix evs c c' :
  let comp := steps idPrefix mounted evs in
  live comp c -> live comp c' -> c = c' /\ cleanup comp = Some c.
Proof.
  intros comp [[pend Hin] Hna] [[pend' Hin'] Hna'].
  pose proof (reachable_wf idPrefix evs) as Hwf. fold comp in Hwf.
  pose proof (wf_live _ Hwf _ _ Hin Hna) as Hc.
  pose proof (wf_live _ Hwf _ _ Hin' Hna') as Hc'.
  split; [congruence|done].
Qed.

Lemma settled_not_live c r comp :
  wf comp -> ~ live comp c ->
  view (settled c r comp) = view comp /\
  sent (settled c r comp) = sent comp /\
  inflight (settled c r comp) = delete c (inflight comp).
Proof.
  intros Hwf Hnl. destruct (inflight comp !! c) as [pend|] eqn:Hin.
  - destruct (wf_inflight _ Hwf _ _ Hin) as [_ Ht].
    destruct (decide (c ∈ aborted comp)) as [Hab|Hna].
    + by rewrite (settled_aborted _ _ _ _ Hin Ht Hab).
    + destruct Hnl. by split.
  - unfold settled. rewrite Hin. by rewrite delete_id.
Qed.

(** X9. Only the live cycle acts. When the request of a cycle that is
    aborted, or already over, settles, no state is updated and no
    request is sent: a cancelled cycle stops where it waits, whatever
    routes it had left, and is in flight no more. *)
Theorem cancelled_cycle_stops idPrefix evs c r :
  let comp := steps idPrefix mounted evs in
  ~ live comp c ->
  let comp' := step idPrefix comp (Settle c r) in
  view comp' = view comp /\
  sent comp' = sent comp /\
  inflight comp' !! c = None /\
  (forall c', c' <> c -> inflight comp' !! c' = inflight comp !! c').
Proof.
  intros comp Hnl comp'. subst comp'. cbn [step].
  destruct (settled_not_live c r comp (reachable_wf idPrefix evs) Hnl)
    as (Hv & Hs & Hi).
  rewrite Hv, Hs, Hi. split; [done|]. split; [done|]. split.
  - apply lookup_delete_eq.
  - intros c' Hne. by apply lookup_delete_ne.
Qed.

(** ** The loading flag *)

Lemma live_settled_other c r comp c' :
  wf comp -> ~ live comp c -> live (settled c r comp) c' -> live comp c'.
Proof.
  intros Hwf Hnl [[pend Hin] Hna].
  destruct (settled_not_live c r comp Hwf Hnl) as (_ & _ & Hi).
  destruct (settled_frame c r comp) as (Ha & _ & _).
  rewrite Hi in Hin. apply lookup_delete_Some in Hin as [_ Hin].
  rewrite Ha in Hna. by split.
Qed.

Lemma busy_step idPrefix comp ev :
  wf comp ->
  (forall c, live comp c -> view comp = started (view comp)) ->
  forall c, live (step idPrefix comp ev) c ->
            view (step idPrefix comp ev) = started (view (step idPrefix comp ev)).
Proof.
  intros Hwf Hbusy c Hlive. destruct ev as [[rs|]|c0 r]; cbn [step] in *.
  - unfold effect.
    by destruct (buildRoutes_start idPrefix rs (view (runCleanup comp)))
      as (k & -> & _).
  - destruct Hlive as [[pend Hin] Hna]. simpl in Hin, Hna.
    destruct (wf_runCleanup _ Hwf) as [_ Hall]. destruct Hna.
    by eapply Hall.
  - destruct (decide (c0 ∈ aborted comp)) as [Hab|Hna0].
    { assert (Hnl : ~ live comp c0) by (by intros [_ ?]).
      destruct (settled_not_live c0 r comp Hwf Hnl) as (-> & _ & _).
      eapply Hbusy, live_settled_other; eauto. }
    destruct (inflight comp !! c0) as [pend|] eqn:Hin0.
    2:{ assert (Hnl : ~ live comp c0).
        { intros [[? H] _]. rewrite Hin0 in H. done. }
        destruct (settled_not_live c0 r comp Hwf Hnl) as (-> & _ & _).
        eapply Hbusy, live_settled_other; eauto. }
    assert (Hl0 : live comp c0) by (split; [by eexists|done]).
    destruct (wf_inflight _ Hwf _ _ Hin0) as [_ Ht].
    revert Hlive. unfold settled. rewrite Hin0.
    rewrite bool_decide_eq_false_2 by done.
    destruct (settle false pend r) as [p|] eqn:Hsettle; [|by eauto].
    destruct (settle_live _ _ _ Ht Hsettle) as [_ Hq].
    specialize (Hq (view comp)).
    destruct (exec false p (view comp)) as [st' [[rq pend']|]];
      intros [[pend'' Hin] Hna]; simpl in *.
    + rewrite Hq by done. by eapply Hbusy.
    + apply lookup_delete_Some in Hin as [Hne Hin].
      pose proof (wf_live _ Hwf _ _ Hin Hna) as H1.
      pose proof (wf_live _ Hwf _ _ Hin0 Hna0) as H2. congruence.
Qed.

Lemma busy_steps idPrefix evs :
  forall comp,
    wf comp ->
    (forall c, live comp c -> view comp = started (view comp)) ->
    forall c, live (steps idPrefix comp evs) c ->
      view (steps idPrefix comp evs)
      = started (view (steps idPrefix comp evs)).
Proof.
  induction evs as [|ev evs IH]; intros comp Hwf Hbusy; [done|].
  simpl. apply IH; [by apply wf_step|by apply busy_step].
Qed.

(** X10. While a cycle is live the component shows it as loading, with
    no polyline and no warning. *)
Theorem live_cycle_shows_loading idPrefix evs c :
  let comp := steps idPrefix mounted evs in
  live comp c ->
  loading (view comp) = true /\ polylines (view comp) = [] /\
  error (view comp) = None.
Proof.
  intros comp Hlive.
  assert (H : view comp = started (view comp)).
  { eapply (busy_steps idPrefix evs mounted wf_mounted); [|done].
    intros c' [[pend Hin] _]. done. }
  rewrite H. done.
Qed.

Lemma exec_complete_idle sl hasError routes errs :
  endsIdle (complete sl hasError routes errs).
Proof.
  intros st _. unfold complete. simpl.
  by destruct (hasError && (0 <? length errs)).
Qed.

Lemma loop_endsIdle idPrefix sl m rs :
  forall vIdx hasError routes errs,
    endsIdle (loop idPrefix sl m vIdx rs hasError routes errs).
Proof.
  induction rs as [|r rest IH]; intros vIdx hasError routes errs;
    cbn [loop].
  - apply exec_complete_idle.
  - destruct (stopIds r); [apply IH|]. by intros st.
Qed.

Lemma complete_tidy sl hasError routes errs :
  tidy (complete sl hasError routes errs).
Proof.
  unfold complete. simpl. by destruct (hasError && (0 <? length errs)).
Qed.

Lemma loop_tidy idPrefix sl m rs :
  forall vIdx hasError routes errs,
    tidy (loop idPrefix sl m vIdx rs hasError routes errs).
Proof.
  induction rs as [|r rest IH]; intros vIdx hasError routes errs;
    cbn [loop].
  - apply complete_tidy.
  - destruct (stopIds r) as [|s ss]; [apply IH|]. simpl.
    intros [ids|e]; split; simpl; try apply IH;
      intros st; simpl; apply loop_endsIdle.
Qed.

Lemma buildRoutes_start_tidy idPrefix rs st :
  exists k,
    exec false (buildRoutes idPrefix rs) st =
      (started st, Some (GetStations, AwaitingStations k)) /\
    tidyPending (AwaitingStations k).
Proof.
  eexists. split; [reflexivity|]. simpl. intros [sl|e]; split; simpl.
  - apply loop_endsIdle.
  - apply loop_tidy.
  - by intros st'.
  - done.
Qed.

Lemma exec_tidy p :
  tidy p ->
  forall st,
    match (exec false p st).2 with
    | Some (_, pend) => tidyPending pend
    | None => True
    end.
Proof.
  induction p as [|v k IH|v k IH|v k IH|v k IH|k IH|k IH|ids k IH];
    simpl; intros Hd st; try done; try by apply IH.
Qed.

Lemma settle_tidy pend r p :
  tidyPending pend -> settle false pend r = Some p -> endsIdle p /\ tidy p.
Proof.
  destruct pend as [k|k], r as [h|h]; simpl; try done;
    intros Ht [= <-]; apply Ht.
Qed.

(** All cycles in flight are tidy, and [loading] is on only with a live
    cycle: kept by every event but a null input. *)
Lemma loading_step idPrefix comp ev :
  wf comp -> ev <> Trigger None ->
  (forall c pend, inflight comp !! c = Some pend -> tidyPending pend) ->
  (loading (view comp) = true -> exists c, live comp c) ->
  (forall c pend, inflight (step idPrefix comp ev) !! c = Some pend ->
                  tidyPending pend) /\
  (loading (view (step idPrefix comp ev)) = true ->
   exists c, live (step idPrefix comp ev) c).
Proof.
  intros Hwf Hev Htidy Hload. destruct ev as [[rs|]|c0 r]; [|done|];
    cbn [step].
  - destruct (wf_runCleanup _ Hwf) as [[_ _ Ha Hc Hr] _].
    unfold effect.
    destruct (buildRoutes_start_tidy idPrefix rs (view (runCleanup comp)))
      as (k & -> & Ht).
    split; simpl.
    + intros c pend. rewrite lookup_insert.
      destruct (decide (fresh comp = c)); [by intros [= <-]|apply Htidy].
    + intros _. exists (fresh comp). split; simpl.
      * rewrite lookup_insert_eq. by eexists.
      * intros [H|H]%elem_of_abort.
        -- apply Hr in H. simpl in H. lia.
        -- apply Ha in H. simpl in H. lia.
  - destruct (decide (live comp c0)) as [Hl0|Hnl]; cycle 1.
    { destruct (settled_not_live c0 r comp Hwf Hnl) as (Hv & _ & Hi).
      destruct (settled_frame c0 r comp) as (Ha & _ & _).
      rewrite Hv, Hi. split.
      - intros c pend [_ H]%lookup_delete_Some. by eapply Htidy.
      - intros Hon. destruct (Hload Hon) as (c & [pend Hin] & Hna).
        exists c. split; [|by rewrite Ha].
        exists pend. rewrite Hi. apply lookup_delete_Some. split; [|done].
        intros ->. apply Hnl. split; [by eexists|done]. }
    destruct Hl0 as [[pend Hin0] Hna0].
    unfold settled. rewrite Hin0. rewrite bool_decide_eq_false_2 by done.
    destruct (settle false pend r) as [p|] eqn:Hsettle; [|by split].
    destruct (wf_inflight _ Hwf _ _ Hin0) as [_ Ht].
    destruct (settle_live _ _ _ Ht Hsettle) as [_ Hq].
    destruct (settle_tidy _ _ _ (Htidy _ _ Hin0) Hsettle) as [Hidle Htp].
    pose proof (exec_tidy _ Htp (view comp)) as Hnext.
    specialize (Hq (view comp)). specialize (Hidle (view comp)).
    destruct (exec false p (view comp)) as [st' [[rq pend']|]]; simpl in *.
    + split.
      * intros c pend''. rewrite lookup_insert.
        destruct (decide (c0 = c)); [by intros [= <-]|apply Htidy].
      * intros _. exists c0. split; simpl; [|done].
        rewrite lookup_insert_eq. by eexists.
    + split.
      * intros c pend'' [_ H]%lookup_delete_Some. by eapply Htidy.
      * rewrite Hidle by done. done.
Qed.

Lemma loading_steps idPrefix evs :
  forall comp,
    wf comp -> neverNull evs ->
    (forall c pend, inflight comp !! c = Some pend -> tidyPending pend) ->
    (loading (view comp) = true -> exists c, live comp c) ->
    loading (view (steps idPrefix comp evs)) = true ->
    exists c, live (steps idPrefix comp evs) c.
Proof.
  induction evs as [|ev evs IH]; intros comp Hwf Hnn Htidy Hload; [done|].
  simpl.
  assert (Hev : ev <> Trigger None) by (apply Hnn; by left).
  destruct (loading_step idPrefix comp ev Hwf Hev Htidy Hload) as [Ht' Hl'].
  apply IH; [by apply wf_step| |done..].
  intros ev' Hin. apply Hnn. by right.
Qed.

(** X11. As long as no null input has been given, [loading] is true
    exactly while a cycle is live: it goes off when the current cycle
    runs to its end, on success and on failure alike, and a superseded
    cycle cannot turn it off. *)
Theorem loading_tracks_live_cycle idPrefix evs :
  neverNull evs ->
  let comp := steps idPrefix mounted evs in
  loading (view comp) = true <-> exists c, live comp c.
Proof.
  intros Hnn comp. split.
  - apply (loading_steps idPrefix evs mounted wf_mounted Hnn); [done..|].
    discriminate.
  - intros [c Hlive].
    assert (H : view comp = started (view comp)).
    { eapply (busy_steps idPrefix evs mounted wf_mounted); [|done].
      intros c' [[pend Hin] _]. done. }
    by rewrite H.
Qed.

(** ** The viewport and the set of points *)

Lemma within_antisym a b : within a b -> within b a -> a = b.
Proof.
  destruct a, b. unfold within. simpl. intros H1 H2. f_equal; lia.
Qed.

(** X12. The bounds depend on the drawn points as a set only. Drawing
    more never shrinks them, the same points in another order or among
    other polylines give the same bounds, and once a point is drawn the
    stations play no part. *)
Theorem viewport_depends_on_point_set pls pls' sts sts' :
  allPointsOf pls <> [] ->
  (forall q, q ∈ allPointsOf pls -> q ∈ allPointsOf pls') ->
  exists b b',
    bounds pls sts = Some b /\ bounds pls' sts' = Some b' /\
    within b b' /\
    ((forall q, q ∈ allPointsOf pls' -> q ∈ allPointsOf pls) -> b = b').
Proof.
  intros Hne Hsub. unfold bounds.
  destruct (allPointsOf pls) as [|p rest] eqn:Hp; [done|].
  destruct (allPointsOf pls') as [|p' rest'] eqn:Hp'.
  { specialize (Hsub p (list_elem_of_here _ _)). by apply elem_of_nil in Hsub. }
  destruct (latLngBounds_smallest p rest) as [Hc Hm].
  destruct (latLngBounds_smallest p' rest') as [Hc' Hm'].
  exists (latLngBounds p rest), (latLngBounds p' rest').
  split; [done|]. split; [done|].
  assert (Hw : within (latLngBounds p rest) (latLngBounds p' rest')).
  { apply Hm. intros q Hq. apply Hc', Hsub, Hq. }
  split; [done|]. intros Hsup. apply within_antisym; [done|].
  apply Hm'. intros q Hq. apply Hc, Hsup, Hq.
Qed.

(** ** The address of the backend *)

Lemma stripSlash_snoc s : stripSlash (s +:+ "/") = s.
Proof.
  induction s as [|c t IH]; [done|].
  rewrite append_cons. cbn [stripSlash]. rewrite IH.
  by destruct t.
Qed.

Lemma stripSlash_keeps s :
  (forall t, s <> t +:+ "/") -> stripSlash s = s.
Proof.
  induction s as [|c rest IH]; intros Hno; [done|]. cbn [stripSlash].
  destruct rest as [|d u].
  - destruct (Ascii.eqb_spec c slash) as [->|Hne]; [|done].
    by destruct (Hno "").
  - rewrite IH; [done|]. intros t Ht. apply (Hno (String c t)).
    by rewrite append_cons, <- Ht.
Qed.

Lemma str_or_nonempty s d : s <> "" -> str_or s d = s.
Proof.
  unfold str_or. by destruct (String.eqb_spec s "").
Qed.

(** X13. The backend address is the configured one with a single
    trailing slash removed, so a base given with or without that slash
    leads to the same request addresses; a second trailing slash is
    kept; and when nothing, or the empty string, is configured the
    local default is used. *)
Theorem api_base_trailing_slash (s : string) :
  s <> "" -> (forall t, s <> t +:+ "/") ->
  apiBase (Some s) = s /\
  apiBase (Some (s +:+ "/")) = s /\
  apiBase (Some (s +:+ "//")) = s +:+ "/" /\
  stationsUrl (Some (s +:+ "/")) = stationsUrl (Some s) /\
  expandRouteUrl (Some (s +:+ "/")) = expandRouteUrl (Some s) /\
  apiBase None = DEFAULT_API /\ apiBase (Some "") = DEFAULT_API.
Proof.
  intros Hne Hno.
  assert (H0 : apiBase (Some s) = s).
  { unfold apiBase. simpl. rewrite str_or_nonempty by done.
    by apply stripSlash_keeps. }
  assert (H1 : apiBase (Some (s +:+ "/")) = s).
  { unfold apiBase. simpl. rewrite str_or_nonempty by (by destruct s).
    apply stripSlash_snoc. }
  assert (H2 : apiBase (Some (s +:+ "//")) = s +:+ "/").
  { unfold apiBase. simpl. rewrite str_or_nonempty by (by destruct s).
    change "//" with ("/" +:+ "/"). rewrite <- append_assoc.
    apply stripSlash_snoc. }
  unfold stationsUrl, expandRouteUrl. rewrite H0, H1, H2. by repeat split.
Qed.

(** ** Ids of the polylines *)

Lemma append_inj_r (a b c : string) : a +:+ b = a +:+ c -> b = c.
Proof.
  induction a as [|x a IH]; [done|]. rewrite !append_cons.
  intros [= H]. by apply IH.
Qed.

Lemma routeSlots_lookup idPrefix rs :
  forall vIdx i,
    (routeSlotsFrom idPrefix vIdx rs).*1 !! i =
    (fun r => routeId idPrefix r (vIdx + i)) <$> rs !! i.
Proof.
  induction rs as [|r rest IH]; intros vIdx i; [done|].
  destruct i as [|i]; simpl.
  - by rewrite Nat.add_0_r.
  - rewrite IH. by replace (S vIdx + i) with (vIdx + S i) by lia.
Qed.

Lemma routeIds_NoDup idPrefix rs :
  (forall i j ri rj,
     rs !! i = Some ri -> rs !! j = Some rj ->
     label ri <> "" -> label ri = label rj -> i = j) ->
  (forall i r k,
     rs !! i = Some r -> label r <> "" ->
     label r <> numbered idPrefix k) ->
  NoDup (routeSlotsFrom idPrefix 0 rs).*1.
Proof.
  intros Hlabels Hfresh. apply NoDup_alt. intros i j x.
  rewrite !routeSlots_lookup. simpl.
  destruct (rs !! i) as [ri|] eqn:Hi; [|done].
  destruct (rs !! j) as [rj|] eqn:Hj; [|done].
  simpl. intros [= <-]. unfold routeId, str_or.
  destruct (String.eqb_spec (label ri) "") as [Hei|Hni],
           (String.eqb_spec (label rj) "") as [Hej|Hnj]; intros [= H].
  - apply append_inj_r in H. apply (inj pretty) in H. lia.
  - destruct (Hfresh j rj i Hj Hnj). done.
  - destruct (Hfresh i ri j Hi Hni). done.
  - by eapply Hlabels.
Qed.

(** X14. The polylines of a completed cycle carry pairwise different
    ids, which the map uses as keys, whenever the routes that have a
    label have pairwise different ones and none of these labels looks
    like a fallback id; routes without label never clash among
    themselves, their fallback ids being numbered by position. *)
Theorem polyline_ids_distinct idPrefix st rs dir exp sl :
  fetchStations dir = Fulfilled sl ->
  (forall i j ri rj,
     rs !! i = Some ri -> rs !! j = Some rj ->
     label ri <> "" -> label ri = label rj -> i = j) ->
  (forall i r k,
     rs !! i = Some r -> label r <> "" ->
     label r <> numbered idPrefix k) ->
  NoDup (pid <$> polylines (state (cycle idPrefix st rs dir exp))).
Proof.
  intros Hd Hlabels Hfresh. rewrite (cycle_ok _ _ _ _ _ _ Hd).
  cbn [state polylines].
  pose proof (rendered_slots idPrefix (stationMapOf sl) exp rs 0) as Hsub.
  apply (fmap_sublist fst) in Hsub.
  rewrite <- list_fmap_compose in Hsub.
  eapply sublist_NoDup; [|exact Hsub]. by apply routeIds_NoDup.
Qed.

(** ** Cycles of the component, one at a time *)

Lemma cycle_settles idPrefix st rs dir exp :
  waiting (cycle idPrefix st rs dir exp) = None.
Proof.
  destruct (fetchStations dir) as [sl|e] eqn:Hd.
  - by rewrite (cycle_ok _ _ _ _ _ _ Hd).
  - by rewrite (cycle_fatal _ _ _ _ _ _ Hd).
Qed.

(** X15. Whatever the component has been through, a cycle it starts
    runs as if alone: at every moment its state is the one that cycle
    reaches from the state it started in with the answers addressed to
    it so far, however the answers to older cycles fall in between;
    once it has all its answers the cycle is over with the result of a
    cycle left alone. *)
Theorem current_cycle_runs_alone idPrefix evs rs evs2 :
  let comp := steps idPrefix mounted evs in
  let c := fresh comp in
  let final :=
    steps idPrefix (step idPrefix comp (Trigger (Some rs))) (settleAll evs2) in
  view final =
    state (foldl deliver (advance (buildRoutes idPrefix rs) (view comp) [])
             (repliesTo c evs2)) /\
  (forall dir exp,
     repliesTo c evs2 = StationsReply dir :: expansionReplies exp 0 rs ->
     view final = state (cycle idPrefix (view comp) rs dir exp) /\
     ~ live final c).
Proof.
  intros comp c final.
  pose proof (tracks_steps idPrefix _ evs2 _ _
                (tracks_trigger idPrefix _ rs (reachable_wf idPrefix evs)))
    as [Hv Hw _ _].
  fold comp c final in Hv, Hw. split; [done|].
  intros dir exp Hr. rewrite Hr in Hv, Hw. split; [done|].
  intros [[pend Hin] _]. rewrite Hw in Hin.
  change (waiting (cycle idPrefix (view comp) rs dir exp) = Some pend) in Hin.
  by rewrite cycle_settles in Hin.
Qed.

Lemma null_step idPrefix comp :
  view (step idPrefix comp (Trigger None)) = cleared (view comp) /\
  sent (step idPrefix comp (Trigger None)) = sent comp.
Proof. done. Qed.

(** X16. A null input given to a component that has only ever been
    given render cycles, none of which is live any more, puts it back
    in its initial state without sending a request, and no answer that
    is still to come changes that. *)
Theorem null_input_when_idle idPrefix evs replies :
  neverNull evs ->
  let comp := steps idPrefix mounted evs in
  (forall c, ~ live comp c) ->
  let comp' := step idPrefix comp (Trigger None) in
  view comp' = initial /\ sent comp' = sent comp /\
  view (steps idPrefix comp' (settleAll replies)) = initial.
Proof.
  intros Hnn comp Hidle comp'.
  assert (Hoff : loading (view comp) = false).
  { destruct (loading (view comp)) eqn:Hl; [|done].
    destruct (loading_steps idPrefix evs mounted wf_mounted Hnn) as [c Hc];
      try done.
    by destruct (Hidle c). }
  pose proof (tracks_steps idPrefix _ replies _ _
                (tracks_null idPrefix _ (reachable_wf idPrefix evs)))
    as [Hfin _ _ _].
  fold comp comp' in Hfin. rewrite Hfin, deliver_done by done.
  destruct (null_step idPrefix comp) as [Hv Hs]. fold comp' in Hv, Hs.
  rewrite Hv, Hs. cbn [state]. unfold cleared. by rewrite Hoff.
Qed.

(** ** The results page *)

(** X17. The results page loads the run named in the address, or, when
    the address names none or an empty one, the run remembered in local
    storage. With neither it sends no request and ends at once with the
    message that no planning is selected, no data and [loading] off;
    otherwise it is loading, without error, until the answer comes. *)
Theorem run_id_from_address_or_storage engine qpId lsId p :
  let res := ResultsPage.loadResult engine qpId lsId p in
  (falsy qpId = true -> falsy lsId = true ->
   res = ({| ResultsPage.selectedVehicle := ResultsPage.selectedVehicle p;
             ResultsPage.planningData := None;
             ResultsPage.data := None;
             ResultsPage.loading := false;
             ResultsPage.error := Some "Seçilen planlama bulunamadı." |},
          None)) /\
  (forall s, qpId = Some s -> s <> "" ->
             res.2 = Some ("/planning/runs/" +:+ s)) /\
  (forall s, falsy qpId = true -> lsId = Some s -> s <> "" ->
             res.2 = Some ("/planning/runs/" +:+ s)) /\
  (forall path, res.2 = Some path ->
     res.1 = {| ResultsPage.selectedVehicle := ResultsPage.selectedVehicle p;
                ResultsPage.planningData := ResultsPage.planningData p;
                ResultsPage.data := ResultsPage.data p;
                ResultsPage.loading := true;
                ResultsPage.error := None |}).
Proof.
  intros res. subst res. unfold ResultsPage.loadResult.
  split; [|split; [|split]].
  - intros Hq Hl.
    assert (Hf : falsy (opt_or qpId lsId) = true).
    { destruct qpId as [q|]; simpl in *; [by rewrite Hq|done]. }
    by rewrite Hf.
  - intros s -> Hs. simpl.
    destruct (String.eqb_spec s "") as [|_]; [done|]. simpl.
    by destruct (String.eqb_spec s "").
  - intros s Hq -> Hs.
    assert (Ho : opt_or qpId (Some s) = Some s).
    { destruct qpId as [q|]; simpl in *; [by rewrite Hq|done]. }
    rewrite Ho. simpl. by destruct (String.eqb_spec s "").
  - intros path. by destruct (falsy (opt_or qpId lsId)).
Qed.

(** ** The map on the results page *)

Lemma settledWell_step idPrefix comp ev :
  settledWell comp -> ev <> Trigger None ->
  settledWell (step idPrefix comp ev).
Proof.
  intros (Hwf & Ht & Hl & Hb) Hev.
  destruct (loading_step idPrefix comp ev Hwf Hev Ht Hl) as [Ht' Hl'].
  split; [by apply wf_step|]. split; [done|]. split; [done|].
  by apply busy_step.
Qed.

Lemma settledWell_null idPrefix :
  settledWell (step idPrefix mounted (Trigger None)).
Proof.
  split; [apply wf_step, wf_mounted|]. split; [|split].
  - intros c pend H. done.
  - done.
  - intros c [[pend H] _]. done.
Qed.

Lemma settledWell_mounted : settledWell mounted.
Proof.
  split; [apply wf_mounted|]. split; [|split]; try done.
  intros c [[pend H] _]. done.
Qed.

Lemma hosted_step_invariant vdn engine env h ev :
  (forall m, planningMap h = Some m ->
     wf m /\ (isMounted h = true -> settledWell m) /\
     (isMounted h = false -> allAborted m)) ->
  forall m, planningMap (hostedStep vdn engine env h ev) = Some m ->
    wf m /\
    (isMounted (hostedStep vdn engine env h ev) = true -> settledWell m) /\
    (isMounted (hostedStep vdn engine env h ev) = false -> allAborted m).
Proof.
  destruct h as [pg mt rq aw pm]. cbn [planningMap isMounted].
  intros IH m. destruct ev as [r| |c r|]; cbn [hostedStep awaiting
    planningMap isMounted page].
  - destruct aw; [|apply IH]. cbn [planningMap isMounted].
    destruct (apiGet env r) as [response|e]; [|apply IH].
    destruct mt; [|apply IH].
    destruct pm as [m0|]; [|done]. cbn [fmap option_fmap option_map].
    intros H%(inj Some). subst m. destruct (IH m0 eq_refl) as (Hwf & Hgood & _).
    split; [by apply wf_step|]. split; [|done]. intros _.
    apply settledWell_step; [by apply Hgood|done].
  - destruct pm as [m0|]; [apply IH|].
    destruct mt; [|done]. cbn [planningMap isMounted]. intros H%(inj Some). subst m.
    split; [apply wf_step, wf_mounted|]. split; [|done]. intros _.
    destruct (ResultsPage.planningData pg) as [response|].
    + apply settledWell_step; [apply settledWell_mounted|done].
    + apply settledWell_null.
  - destruct pm as [m0|]; [|done]. cbn [fmap option_fmap option_map].
    intros H%(inj Some). subst m. destruct (IH m0 eq_refl) as (Hwf & Hgood & Hab).
    split; [by apply wf_step|]. split.
    + intros Hm. apply settledWell_step; [by apply Hgood|done].
    + intros Hm c' pend. specialize (Hab Hm). cbn [step].
      destruct (settled_frame c r m0) as (-> & _ & _).
      assert (Hnl : ~ live m0 c).
      { intros [[pend' Hin] Hna]. apply Hna. by eapply Hab. }
      destruct (settled_not_live c r m0 Hwf Hnl) as (_ & _ & ->).
      intros [_ Hin]%lookup_delete_Some. by eapply Hab.
  - destruct pm as [m0|]; [|done]. cbn [fmap option_fmap option_map].
    intros H%(inj Some). subst m. destruct (IH m0 eq_refl) as (Hwf & _ & _).
    destruct (wf_runCleanup _ Hwf) as [Hwf' Hall].
    split; [done|]. split; [done|]. intros _. exact Hall.
Qed.

Lemma hosted_invariant vdn engine env qpId lsId evs :
  let h := hostedSteps vdn engine env (firstEffects engine qpId lsId) evs in
  forall m, planningMap h = Some m ->
    wf m /\
    (isMounted h = true -> settledWell m) /\
    (isMounted h = false -> allAborted m).
Proof.
  induction evs as [|ev evs IH] using rev_ind; intros h.
  - subst h. unfold firstEffects.
    by destruct (ResultsPage.loadResult _ _ _ _).
  - subst h. unfold hostedSteps in *. rewrite foldl_app. cbn [foldl].
    by apply hosted_step_invariant.
Qed.

(** X18. On the results page the planning map starts a cycle only once
    the planning has been loaded, and while the page is mounted its
    [loading] flag is on exactly while that cycle is live: the page
    never takes a planning away from the map again. *)
Theorem hosted_map_loading vdn engine env qpId lsId evs :
  let h := hostedSteps vdn engine env (firstEffects engine qpId lsId) evs in
  isMounted h = true ->
  forall m, planningMap h = Some m ->
    (loading (view m) = true <-> exists c, live m c).
Proof.
  intros h Hm m Hp.
  destruct (hosted_invariant vdn engine env qpId lsId evs m Hp)
    as (_ & Hgood & _).
  destruct (Hgood Hm) as (_ & _ & Hl & Hb). split; [done|].
  intros [c Hc]. by rewrite (Hb c Hc).
Qed.

Lemma frozen_step vdn engine env h ev :
  isMounted h = false ->
  (forall m, planningMap h = Some m -> wf m /\ allAborted m) ->
  page (hostedStep vdn engine env h ev) = page h /\
  view <$> planningMap (hostedStep vdn engine env h ev)
    = view <$> planningMap h /\
  sent <$> planningMap (hostedStep vdn engine env h ev)
    = sent <$> planningMap h /\
  isMounted (hostedStep vdn engine env h ev) = false.
Proof.
  destruct h as [pg mt rq aw pm]. cbn [planningMap isMounted page].
  intros -> Hinv. destruct ev as [r| |c r|];
    cbn [hostedStep awaiting planningMap isMounted page].
  - destruct aw; [|done]. cbn [planningMap isMounted page].
    by destruct (apiGet env r).
  - by destruct pm.
  - destruct pm as [m0|]; [|done]. cbn [fmap option_fmap option_map].
    destruct (Hinv m0 eq_refl) as [Hwf Hab].
    assert (Hnl : ~ live m0 c).
    { intros [[pend' Hin] Hna]. apply Hna. by eapply Hab. }
    cbn [step].
    by destruct (settled_not_live c r m0 Hwf Hnl) as (-> & -> & _).
  - by destruct pm.
Qed.

(** X19. Once the results page is unmounted nothing is updated any
    more, whatever arrives and in whatever order: the page keeps its
    state when its own request settles, and the map keeps its state and
    sends no further request when its requests do. *)
Theorem unmounted_page_is_frozen vdn engine env qpId lsId evs evs' :
  let h :=
    hostedStep vdn engine env
      (hostedSteps vdn engine env (firstEffects engine qpId lsId) evs)
      Unmounted in
  let h' := hostedSteps vdn engine env h evs' in
  page h' = page h /\
  view <$> planningMap h' = view <$> planningMap h /\
  sent <$> planningMap h' = sent <$> planningMap h.
Proof.
  intros h h'. subst h'.
  assert (Hinv : forall m, planningMap h = Some m ->
            wf m /\ (isMounted h = true -> settledWell m) /\
            (isMounted h = false -> allAborted m)).
  { apply hosted_step_invariant.
    apply (hosted_invariant vdn engine env qpId lsId evs). }
  assert (Hm : isMounted h = false) by done.
  clearbody h. revert h Hinv Hm.
  induction evs' as [|ev evs' IH]; intros h Hinv Hm; [done|].
  cbn [hostedSteps foldl].
  assert (Hab : forall m, planningMap h = Some m -> wf m /\ allAborted m).
  { intros m Hp. destruct (Hinv m Hp) as (Hwf & _ & Hab). by split; auto. }
  destruct (frozen_step vdn engine env h ev Hm Hab) as (Hp & Hv & Hs & Hm').
  rewrite <- Hp, <- Hv, <- Hs. apply IH; [|done].
  by apply hosted_step_invariant.
Qed.

Lemma idle_step vdn engine env h ev :
  (awaiting h = true -> ResultsPage.planningData (page h) = None) ->
  (ResultsPage.planningData (page h) = None ->
   forall m, planningMap h = Some m ->
     inflight m = ∅ /\ sent m = [] /\ view m = initial) ->
  let h' := hostedStep vdn engine env h ev in
  (awaiting h' = true -> ResultsPage.planningData (page h') = None) /\
  (ResultsPage.planningData (page h') = None ->
   forall m, planningMap h' = Some m ->
     inflight m = ∅ /\ sent m = [] /\ view m = initial).
Proof.
  destruct h as [pg mt rq aw pm]. cbn [planningMap isMounted page awaiting].
  intros Haw Hidle. destruct ev as [r| |c r|];
    cbn [hostedStep awaiting planningMap isMounted page].
  - destruct aw; [|done]. cbn [planningMap isMounted page awaiting].
    split; [done|]. specialize (Haw eq_refl).
    destruct (apiGet env r) as [response|e];
      cbn [ResultsPage.resumed ResultsPage.caught].
    + destruct mt; [done|]. auto.
    + intros _. auto.
  - destruct pm as [m0|]; [done|]. destruct mt; [|done].
    cbn [planningMap isMounted page awaiting]. split; [done|].
    intros Hnone m H%(inj Some). subst m. by rewrite Hnone.
  - split; [done|]. intros Hnone m.
    destruct pm as [m0|]; [|done]. cbn [fmap option_fmap option_map].
    intros H%(inj Some). subst m.
    destruct (Hidle Hnone m0 eq_refl) as (Hi & Hs & Hv).
    cbn [step]. unfold settled. by rewrite Hi, lookup_empty.
  - split; [done|]. intros Hnone m.
    destruct pm as [m0|]; [|done]. cbn [fmap option_fmap option_map].
    intros H%(inj Some). subst m.
    destruct (Hidle Hnone m0 eq_refl) as (Hi & Hs & Hv). by simpl.
Qed.

(** X20. On the results page the map does nothing before the planning
    is there: as long as the page holds no planning, and for good when
    the load has failed, the mounted map has sent no request, has none
    in flight and shows its initial, empty state. *)
Theorem map_idle_without_planning vdn engine env qpId lsId evs :
  let h := hostedSteps vdn engine env (firstEffects engine qpId lsId) evs in
  ResultsPage.planningData (page h) = None ->
  forall m, planningMap h = Some m ->
    inflight m = ∅ /\ sent m = [] /\ view m = initial.
Proof.
  intros h. subst h.
  enough (H :
    let h := hostedSteps vdn engine env (firstEffects engine qpId lsId) evs in
    (awaiting h = true -> ResultsPage.planningData (page h) = None) /\
    (ResultsPage.planningData (page h) = None ->
     forall m, planningMap h = Some m ->
       inflight m = ∅ /\ sent m = [] /\ view m = initial)) by apply H.
  induction evs as [|ev evs IH] using rev_ind.
  - unfold firstEffects, ResultsPage.loadResult. cbv zeta.
    destruct (falsy (opt_or qpId lsId)); simpl; by split.
  - unfold hostedSteps in *. rewrite foldl_app. cbn [foldl].
    destruct IH as [H1 H2]. by apply idle_step.
Qed.

(** X21. A load that fails on a mounted page leaves it without
    planning and without data, [loading] off, and with a message that
    tells why: the detail the backend sent with its error status, the
    library's own message when it sent none, and the backend address
    when the backend could not be reached. *)
Theorem load_failure_is_explained vdn engine env r p :
  let after := ResultsPage.resumed vdn engine true (apiGet env r) p in
  (forall d, r = Status (Some d) -> d <> "" ->
     ResultsPage.error after = Some d) /\
  (r = Status None \/ r = Status (Some "") ->
     ResultsPage.error after = Some "İstek başarısız") /\
  (r = NetworkFailure ->
     ResultsPage.error after =
     Some ("Sunucuya bağlanılamadı (" +:+ apiBase env
           +:+ "). Backend (API) çalışıyor mu?")) /\
  ((forall response, r <> Ok (Some response)) ->
     ResultsPage.planningData after = None /\
     ResultsPage.data after = None /\
     ResultsPage.loading after = false /\
     ResultsPage.error after <> None).
Proof.
  intros after. subst after. split; [|split; [|split]].
  - intros d -> Hd.
    cbn [apiGet ResultsPage.resumed ResultsPage.caught ResultsPage.error
         messageOf from_option].
    change (Datatypes.id d) with d.
    rewrite (str_or_nonempty d) by done. by rewrite str_or_nonempty.
  - by intros [->| ->].
  - intros ->.
    cbn [apiGet ResultsPage.resumed ResultsPage.caught ResultsPage.error
         messageOf].
    by rewrite str_or_nonempty.
  - intros Hfail. destruct r as [|d|[response|]]; try done.
    by destruct (Hfail response).
Qed.

(** X22. The panel of the results page and the map read the same
    response alike: there are as many vehicle cards as routes, and the
    stop count on the card of a vehicle is the number of stop ids of
    its route, so a vehicle shown with no stop is one the map skips. *)
Theorem cards_match_routes vdn (response : ResultsPage.PlanningResponse) :
  let shown := ResultsPage.cards (ResultsPage.mapped vdn response) in
  let routes := PlanningMap.routesOf (ResultsPage.forMap response) in
  ResultsPage.vehicle_count (ResultsPage.mapped vdn response) = length routes /\
  length shown = length routes /\
  (forall i,
     ResultsPage.stop_count <$> shown !! i
     = (fun r => length (stopIds r)) <$> routes !! i) /\
  (forall i c r,
     shown !! i = Some c -> routes !! i = Some r ->
     (ResultsPage.stop_count c = 0 <-> stopIds r = []) /\
     length (ResultsPage.route_station_names c) = length (stopIds r)).
Proof.
  intros shown routes. subst shown routes.
  unfold ResultsPage.mapped, PlanningMap.routesOf, ResultsPage.forMap.
  cbn [ResultsPage.cards ResultsPage.vehicle_count PlanningMap.vehicles].
  rewrite !length_imap, !length_map. split; [done|]. split; [done|].
  assert (Hlook : forall i,
    ResultsPage.stop_count <$> imap (ResultsPage.card vdn)
                                  (ResultsPage.vehicles response) !! i
    = (fun r => length (stopIds r))
      <$> map (fun vehicle =>
                 {| label := PlanningMap.vehicle_id vehicle;
                    stopIds := map PlanningMap.station_id
                                 (PlanningMap.stops vehicle) |})
            (map (fun veh =>
                    {| PlanningMap.vehicle_id := ResultsPage.vehicle_id veh;
                       PlanningMap.stops := ResultsPage.stops veh |})
               (ResultsPage.vehicles response)) !! i).
  { intros i. rewrite list_lookup_imap.
    change (map ?f ?l) with (f <$> l). rewrite !list_lookup_fmap.
    destruct (ResultsPage.vehicles response !! i) as [veh|]; [|done].
    simpl. by rewrite length_map. }
  split; [done|]. intros i c r Hc Hr.
  pose proof (Hlook i) as H.
  change (map ?f ?l) with (f <$> l) in Hr, H.
  rewrite list_lookup_imap in Hc.
  rewrite !list_lookup_fmap in Hr.
  destruct (ResultsPage.vehicles response !! i) as [veh|]; [|done].
  simpl in Hc, Hr. injection Hc as <-. injection Hr as <-. simpl.
  rewrite !length_map. split; [|done].
  by destruct (ResultsPage.stops veh).
Qed.

(** ** Instances of the further properties *)

Lemma directory_last_duplicate_wins_witness :
  stationMapOf repeatedStations !! 10%Z
  = Some {| id := 10; name := "Izmit (yeni)"; lat := of_int 41;
            lon := of_int 30; is_active := Some true |} /\
  {| id := 10; name := "Izmit (yeni)"; lat := of_int 41;
     lon := of_int 30; is_active := Some true |} ∈ repeatedStations.
Proof.
  destruct (directory_last_duplicate_wins repeatedStations 10%Z)
    as (Hl & _ & Hin).
  assert (H : stationMapOf repeatedStations !! 10%Z
              = Some {| id := 10; name := "Izmit (yeni)"; lat := of_int 41;
                        lon := of_int 30; is_active := Some true |})
    by (rewrite Hl; reflexivity).
  split; [exact H|]. exact (proj1 (Hin _ H)).
Defined.

Lemma warning_lists_failed_routes_witness :
  error (state (cycle "vehicle-" initial twinRoutes
                  (Ok (Some sampleStations)) failingExpansion))
  = Some (GENERIC_WARNING
          +:+ " (V1: Rota hesaplanamadı, V1: Rota hesaplanamadı)") /\
  omap (failureLine failingExpansion) (indexedFrom 0 twinRoutes)
  = [routeError {| label := "V1"; stopIds := [10; 20]%Z |} 0;
     routeError {| label := "V1"; stopIds := [20; 10]%Z |} 1].
Proof.
  destruct (warning_lists_failed_routes "vehicle-" initial twinRoutes
              (Ok (Some sampleStations)) failingExpansion sampleStations
              eq_refl) as (H & _).
  split; [|reflexivity]. rewrite H. vm_compute. reflexivity.
Defined.


Lemma polyline_points_come_from_directory_witness :
  let pl := {| pid := "V1"; color := "#34d399";
               points := [ (of_int 40, of_int 29); (of_int 41, of_int 30);
                           (of_int 42, of_int 28) ] |} in
  2 <= length (points pl) /\
  (forall q, q ∈ points pl ->
             exists s, s ∈ sampleStations /\ q = (lat s, lon s)) /\
  (forall i p q,
     points pl !! i = Some p -> points pl !! S i = Some q -> p <> q).
Proof.
  apply (polyline_points_come_from_directory "vehicle-" initial sampleRoutes
           (Ok (Some sampleStations)) sampleExpansion sampleStations).
  - reflexivity.
  - vm_compute. left.
Defined.

Lemma failure_reasons_discarded_witness :
  cycle "vehicle-" initial sampleRoutes (Ok (Some sampleStations))
    sampleExpansion
  = cycle "vehicle-" initial sampleRoutes (Ok (Some sampleStations))
      otherExpansion.
Proof.
  apply failure_reasons_discarded.
  - reflexivity.
  - intros [|[|i]]; simpl; done.
Defined.

Lemma plan_without_stops_witness :
  cycle "vehicle-" initial emptyRoutes (Ok (Some sampleStations))
    sampleExpansion =
  {| state := {| stations := sampleStations; polylines := [];
                 loading := false; error := None |};
     issued := [GetStations];
     waiting := None |}.
Proof.
  apply plan_without_stops.
  - reflexivity.
  - intros r Hr. apply elem_of_cons in Hr as [->|Hr]; [reflexivity|].
    apply elem_of_cons in Hr as [->|Hr]; [reflexivity|].
    by apply elem_of_nil in Hr.
Defined.

Lemma previous_state_matters_only_by_locations_witness :
  cycle "vehicle-" (started sampleState) sampleRoutes
    (Status (Some "down")) sampleExpansion
  = cycle "vehicle-" sampleState sampleRoutes
      (Status (Some "down")) sampleExpansion /\
  cycle "vehicle-" initial sampleRoutes (Ok (Some sampleStations))
    sampleExpansion
  = cycle "vehicle-" sampleState sampleRoutes (Ok (Some sampleStations))
      sampleExpansion.
Proof.
  destruct (previous_state_matters_only_by_locations "vehicle-" sampleState
              sampleRoutes (Status (Some "down")) sampleExpansion)
    as (H1 & _ & _).
  destruct (previous_state_matters_only_by_locations "vehicle-" sampleState
              sampleRoutes (Ok (Some sampleStations)) sampleExpansion)
    as (_ & H2 & _).
  split.
  - apply H1. reflexivity.
  - apply (H2 sampleStations). reflexivity.
Defined.

Lemma live_after_trigger idPrefix rs :
  live (steps idPrefix mounted [Trigger (Some rs)]) 0.
Proof.
  split.
  - destruct (buildRoutes_start idPrefix rs initial) as (k & Hk & _).
    exists (AwaitingStations k). cbn [steps foldl step]. unfold effect.
    cbn [runCleanup view mounted fresh inflight]. rewrite Hk.
    cbn [inflight]. apply lookup_insert_eq.
  - cbn [steps foldl step]. unfold effect.
    destruct (exec false _ _) as [st' o]. cbn [aborted]. simpl.
    apply not_elem_of_empty.
Qed.

Lemma one_live_cycle_witness :
  0 = 0 /\
  cleanup (steps "vehicle-" mounted [Trigger (Some sampleRoutes)]) = Some 0.
Proof.
  apply (one_live_cycle "vehicle-" [Trigger (Some sampleRoutes)] 0 0);
    apply live_after_trigger.
Defined.

Lemma cancelled_cycle_stops_witness :
  let comp := steps "vehicle-" mounted
                [Trigger (Some sampleRoutes); Trigger (Some otherRoutes)] in
  let comp' :=
    step "vehicle-" comp (Settle 0 (StationsReply (Ok (Some sampleStations)))) in
  view comp' = view comp /\
  sent comp' = sent comp /\
  inflight comp' !! 0 = None /\
  (forall c', c' <> 0 -> inflight comp' !! c' = inflight comp !! c').
Proof.
  apply (cancelled_cycle_stops "vehicle-"
           [Trigger (Some sampleRoutes); Trigger (Some otherRoutes)] 0
           (StationsReply (Ok (Some sampleStations)))).
  intros [_ Hna]. apply Hna. vm_compute. set_solver.
Defined.

Lemma live_cycle_shows_loading_witness :
  let comp := steps "vehicle-" mounted [Trigger (Some sampleRoutes)] in
  loading (view comp) = true /\ polylines (view comp) = [] /\
  error (view comp) = None.
Proof.
  apply (live_cycle_shows_loading "vehicle-" [Trigger (Some sampleRoutes)] 0).
  apply live_after_trigger.
Defined.

Lemma loading_tracks_live_cycle_witness :
  let comp := steps "vehicle-" mounted [Trigger (Some sampleRoutes)] in
  loading (view comp) = true <-> exists c, live comp c.
Proof.
  apply (loading_tracks_live_cycle "vehicle-" [Trigger (Some sampleRoutes)]).
  intros ev Hev. apply list_elem_of_singleton in Hev. by subst.
Defined.

Lemma viewport_depends_on_point_set_witness :
  exists b b',
    bounds (polylines sampleState) sampleStations = Some b /\
    bounds (polylines sampleState ++ polylines sampleState) [] = Some b' /\
    within b b' /\
    ((forall q,
        q ∈ allPointsOf (polylines sampleState ++ polylines sampleState) ->
        q ∈ allPointsOf (polylines sampleState)) -> b = b').
Proof.
  apply (viewport_depends_on_point_set (polylines sampleState)
           (polylines sampleState ++ polylines sampleState)
           sampleStations []).
  - discriminate.
  - intros q Hq. rewrite allPointsOf_concat in *.
    rewrite fmap_app, concat_app. apply elem_of_app. by left.
Defined.

Lemma stripSlash_fixed s : stripSlash s = s -> forall t, s <> t +:+ "/".
Proof.
  intros Hs t ->. rewrite stripSlash_snoc in Hs.
  apply (f_equal String.length) in Hs. rewrite length_append in Hs.
  simpl in Hs. lia.
Qed.

Lemma api_base_trailing_slash_witness :
  apiBase (Some "http://10.0.0.5:8000") = "http://10.0.0.5:8000" /\
  apiBase (Some "http://10.0.0.5:8000/") = "http://10.0.0.5:8000" /\
  apiBase (Some "http://10.0.0.5:8000//") = "http://10.0.0.5:8000/" /\
  stationsUrl (Some "http://10.0.0.5:8000/")
    = stationsUrl (Some "http://10.0.0.5:8000") /\
  expandRouteUrl (Some "http://10.0.0.5:8000/")
    = expandRouteUrl (Some "http://10.0.0.5:8000") /\
  apiBase None = DEFAULT_API /\ apiBase (Some "") = DEFAULT_API.
Proof.
  apply (api_base_trailing_slash "http://10.0.0.5:8000").
  - discriminate.
  - apply stripSlash_fixed. reflexivity.
Defined.

Lemma polyline_ids_distinct_witness :
  NoDup (pid <$> polylines (state (cycle "vehicle-" initial sampleRoutes
                                     (Ok (Some sampleStations))
                                     sampleExpansion))).
Proof.
  apply (polyline_ids_distinct "vehicle-" initial sampleRoutes
           (Ok (Some sampleStations)) sampleExpansion sampleStations).
  - reflexivity.
  - intros [|[|[|i]]] [|[|[|j]]] ri rj Hi Hj; simpl in Hi, Hj;
      try discriminate; injection Hi as <-; injection Hj as <-;
      simpl; intros Hne Heq; try reflexivity; try discriminate;
      by destruct Hne.
  - intros [|[|[|i]]] r k Hi; simpl in Hi; try discriminate;
      injection Hi as <-; simpl; intros Hne; try (by destruct Hne);
      unfold numbered; rewrite append_cons; discriminate.
Defined.

Lemma current_cycle_runs_alone_witness :
  let final :=
    steps "vehicle-"
      (step "vehicle-"
         (steps "vehicle-" mounted [Trigger (Some otherRoutes); Trigger None])
         (Trigger (Some sampleRoutes)))
      (settleAll
         [ (1, StationsReply (Ok (Some sampleStations)));
           (0, StationsReply (Ok (Some sampleStations)));
           (1, ExpandReply (sampleExpansion 0));
           (1, ExpandReply (sampleExpansion 1));
           (1, ExpandReply (sampleExpansion 2)) ]) in
  view final =
    state (cycle "vehicle-"
             (view (steps "vehicle-" mounted
                      [Trigger (Some otherRoutes); Trigger None]))
             sampleRoutes (Ok (Some sampleStations)) sampleExpansion) /\
  ~ live final 1.
Proof.
  destruct (current_cycle_runs_alone "vehicle-"
              [Trigger (Some otherRoutes); Trigger None] sampleRoutes
              [ (1, StationsReply (Ok (Some sampleStations)));
                (0, StationsReply (Ok (Some sampleStations)));
                (1, ExpandReply (sampleExpansion 0));
                (1, ExpandReply (sampleExpansion 1));
                (1, ExpandReply (sampleExpansion 2)) ]) as [_ H].
  apply (H (Ok (Some sampleStations)) sampleExpansion). reflexivity.
Defined.

Example stuck_flag_cleared_by_next_cycle :
  loading (view (steps "vehicle-" mounted
                   [Trigger (Some otherRoutes); Trigger None])) = true /\
  loading (state (cycle "vehicle-"
                    (view (steps "vehicle-" mounted
                             [Trigger (Some otherRoutes); Trigger None]))
                    sampleRoutes (Ok (Some sampleStations)) sampleExpansion))
  = false.
Proof. split; vm_compute; reflexivity. Qed.

Example completedCycle_view :
  view (steps "vehicle-" mounted completedCycle) =
  {| stations := sampleStations;
     polylines :=
       [ {| pid := "V1"; color := "#34d399";
            points := [ (of_int 40, of_int 29); (of_int 41, of_int 30);
                        (of_int 42, of_int 28) ] |} ];
     loading := false;
     error := Some (GENERIC_WARNING +:+ " (V2: Rota hesaplanamadı)") |}.
Proof. vm_compute. reflexivity. Qed.

Lemma completedCycle_idle :
  inflight (steps "vehicle-" mounted completedCycle) = ∅.
Proof. vm_compute. reflexivity. Qed.

Lemma null_input_when_idle_witness :
  let comp := steps "vehicle-" mounted completedCycle in
  let comp' := step "vehicle-" comp (Trigger None) in
  polylines (view comp) <> [] /\ error (view comp) <> None /\
  view comp' = initial /\ sent comp' = sent comp /\
  view (steps "vehicle-" comp'
          (settleAll [(0, StationsReply (Ok (Some sampleStations)));
                      (1, ExpandReply (sampleExpansion 0))]))
  = initial.
Proof.
  split; [rewrite completedCycle_view; discriminate|].
  split; [rewrite completedCycle_view; discriminate|].
  apply (null_input_when_idle "vehicle-" completedCycle
           [(0, StationsReply (Ok (Some sampleStations)));
            (1, ExpandReply (sampleExpansion 0))]).
  - intros ev Hev. unfold completedCycle in Hev.
    repeat (apply elem_of_cons in Hev as [->|Hev]; [discriminate|]).
    by apply elem_of_nil in Hev.
  - intros c [[pend Hin] _]. rewrite completedCycle_idle in Hin.
    by rewrite lookup_empty in Hin.
Defined.

Lemma run_id_from_address_or_storage_witness :
  ResultsPage.loadResult plainEngine (Some "") None ResultsPage.firstRender
  = ({| ResultsPage.selectedVehicle := None;
        ResultsPage.planningData := None;
        ResultsPage.data := None;
        ResultsPage.loading := false;
        ResultsPage.error := Some "Seçilen planlama bulunamadı." |}, None) /\
  (ResultsPage.loadResult plainEngine (Some "42") (Some "7")
     ResultsPage.firstRender).2 = Some "/planning/runs/42" /\
  (ResultsPage.loadResult plainEngine (Some "") (Some "7")
     ResultsPage.firstRender).2 = Some "/planning/runs/7".
Proof.
  destruct (run_id_from_address_or_storage plainEngine (Some "") None
              ResultsPage.firstRender) as (H1 & _).
  destruct (run_id_from_address_or_storage plainEngine (Some "42") (Some "7")
              ResultsPage.firstRender) as (_ & H2 & _).
  destruct (run_id_from_address_or_storage plainEngine (Some "") (Some "7")
              ResultsPage.firstRender) as (_ & _ & H3 & _).
  split; [|split].
  - by apply H1.
  - by apply (H2 "42").
  - by apply (H3 "7").
Defined.

Lemma hosted_map_loading_witness :
  let h := hostedSteps plainName plainEngine None
             (firstEffects plainEngine (Some "42") None)
             [MapMounted; ApiSettled (Ok (Some sampleResponse))] in
  exists m,
    planningMap h = Some m /\
    (loading (view m) = true <-> exists c, live m c).
Proof.
  eexists. split; [reflexivity|].
  apply (hosted_map_loading plainName plainEngine None (Some "42") None
           [MapMounted; ApiSettled (Ok (Some sampleResponse))]);
    reflexivity.
Defined.

Example hosted_map_requests :
  sent <$> planningMap
             (hostedSteps plainName plainEngine None
                (firstEffects plainEngine (Some "42") None)
                [MapMounted; ApiSettled (Ok (Some sampleResponse))])
  = Some [(0, GetStations)].
Proof. vm_compute. reflexivity. Qed.

Lemma map_idle_without_planning_witness :
  let h := hostedSteps plainName plainEngine None
             (firstEffects plainEngine (Some "42") None)
             [MapMounted; ApiSettled (Status (Some "not found"));
              MapSettled 0 (StationsReply (Ok (Some sampleStations)))] in
  exists m,
    planningMap h = Some m /\
    inflight m = ∅ /\ sent m = [] /\ view m = initial.
Proof.
  eexists. split; [reflexivity|].
  apply (map_idle_without_planning plainName plainEngine None (Some "42") None
           [MapMounted; ApiSettled (Status (Some "not found"));
            MapSettled 0 (StationsReply (Ok (Some sampleStations)))]);
    reflexivity.
Defined.

Lemma load_failure_is_explained_witness :
  ResultsPage.error
    (ResultsPage.resumed plainName plainEngine true
       (apiGet None (Status (Some "Run not found"))) ResultsPage.firstRender)
  = Some "Run not found" /\
  ResultsPage.error
    (ResultsPage.resumed plainName plainEngine true
       (apiGet None (Status None)) ResultsPage.firstRender)
  = Some "İstek başarısız" /\
  ResultsPage.error
    (ResultsPage.resumed plainName plainEngine true
       (apiGet (P := ResultsPage.PlanningResponse) None NetworkFailure)
       ResultsPage.firstRender)
  = Some ("Sunucuya bağlanılamadı (" +:+ apiBase None
          +:+ "). Backend (API) çalışıyor mu?").
Proof.
  destruct (load_failure_is_explained plainName plainEngine None
              (Status (Some "Run not found")) ResultsPage.firstRender)
    as (H1 & _).
  destruct (load_failure_is_explained plainName plainEngine None
              (Status None) ResultsPage.firstRender) as (_ & H2 & _).
  destruct (load_failure_is_explained plainName plainEngine None
              NetworkFailure ResultsPage.firstRender) as (_ & _ & H3 & _).
  split; [|split].
  - by apply (H1 "Run not found").
  - apply H2. by left.
  - by apply H3.
Defined.

Lemma cards_match_routes_witness :
  ResultsPage.stop_count
    <$> ResultsPage.cards (ResultsPage.mapped plainName sampleResponse) !! 1
  = Some 0 /\
  (forall c r,
     ResultsPage.cards (ResultsPage.mapped plainName sampleResponse) !! 1
       = Some c ->
     PlanningMap.routesOf (ResultsPage.forMap sampleResponse) !! 1 = Some r ->
     (ResultsPage.stop_count c = 0 <-> stopIds r = []) /\
     length (ResultsPage.route_station_names c) = length (stopIds r)).
Proof.
  destruct (cards_match_routes plainName sampleResponse) as (_ & _ & H1 & H2).
  split; [by rewrite (H1 1)|]. intros c r. apply (H2 1).
Defined.
